(** * tt_elo_app: the rating engine and the confirmation workflow of [app.py]

    The development embeds the parts of [src/app.py] that decide ratings:
    - [calc_elo], the rating update of one player after one match;
    - [rebuild_players], the replay of the whole confirmed history over a
      reset roster;
    - [elo_history], the independent replay that yields one player's curve;
    - the three button handlers of the page ("Match speichern",
      "Bestätigen", "Ablehnen") acting on the three tables, and the loop
      that draws the buttons of the open matches;
    - login, registration and the three keys of the session;
    - the two sections that only read: the curve of the logged-in player
      and the last five matches.

    Conventions.  A pandas frame is the list of its rows in index order, a
    row is a record whose fields carry the column names of the CSV files.
    The frames are the frames in memory during one run of the script.  A
    cell of the columns [Name], [A], [B] and [Pin] is a text, a cell of
    [Datum] is an instant or [NaT], and the remaining cells are integers,
    modelled by value: pandas and Python move between [int], [int64] and
    [float64] for one and the same integral value, and that representation
    is not tracked.  What [to_csv] and [read_csv] make of a cell between two
    runs is not modelled, and no statement follows a value from one run
    into the next.

    An exception of the interpreter inside a function ([IndexError] of
    [.iat[0]], [KeyError] of a dict or of [drop]) is the result [None] of
    that function.  A run of the page ends regularly or with an exception
    that nothing catches ([Ending]); what the run has saved until then
    stays saved.

    Two things are not the program's own and are taken as follows.  The
    sort of pandas is a parameter with the contract of a sort
    ([SortValues]); concrete histories use the insertion sort
    [stable_sort].  The arithmetic of [calc_elo] is binary64 in Python, and
    the file carries the expression twice.  [Binary64.calc_elo] follows the
    interpreter operation by operation on primitive floats, with the
    conversions of [int] and the exceptions of the operators, and with
    [pow] of the C library as a parameter.  [calc_elo] is the exact value
    of the same expression over the real numbers, which is what the
    specification writes down.  The statements about replay and workflow
    never look inside [calc_elo]; only the concrete histories evaluate it,
    at ratings where the value is far from a rounding boundary. *)

From Stdlib Require Import ZArith Reals Lra Lia List String Bool.
From Stdlib Require Import Sorting.Sorted Sorting.Permutation.
From Stdlib Require Floats.
From stdpp Require Import base option list gmap strings.

Set Default Proof Using "Type*".
Local Open Scope Z_scope.

(** ** Data model *)

(** The exceptions the embedded code can raise.  [LookupError] stands for
    its two subclasses [KeyError] and [IndexError]. *)
Inductive Exception : Type :=
| OverflowError
| ZeroDivisionError
| ValueError
| LookupError.

(** A result or the exception raised instead, with the bind of the error
    monad. *)
#[export] Instance raises_bind : MBind (sum Exception) :=
  fun A B (f : A -> Exception + B) (m : Exception + A) =>
    match m with
    | inl e => inl e
    | inr a => f a
    end.

(** [None] read as the exception [e]. *)
Definition or_raise {A : Type} (e : Exception) (o : option A) : Exception + A :=
  match o with
  | Some a => inr a
  | None => inl e
  end.

(** A [Datum] cell after [pd.to_datetime(..., errors="coerce")]: an instant
    on the time line, or [NaT] ([None]) when the text could not be read. *)
Definition Timestamp : Type := option Z.

(** One row of [players.csv]. *)
Record Player : Type := mkPlayer {
  Name : string;
  ELO : Z;
  Siege : Z;
  Niederlagen : Z;
  Spiele : Z;
  Pin : string
}.

(** One row of [matches.csv]. *)
Record Match : Type := mkMatch {
  Datum : Timestamp;
  A : string;
  B : string;
  PunkteA : Z;
  PunkteB : Z
}.

(** One row of [pending_matches.csv]: the five match columns and the two
    confirmation flags. *)
Record PendingMatch : Type := mkPending {
  cols : Match;
  confA : bool;
  confB : bool
}.

(** ** The rating kernel: the exact value *)

(** [round(x, 0)]: the integral value nearest to [x], a tie going to the
    even neighbour.  [Int_part] is the floor. *)
Definition round0 (x : R) : Z :=
  let f := Int_part x in
  let d := (x - IZR f)%R in
  if Rlt_dec d (1 / 2) then f
  else if Rlt_dec (1 / 2) d then f + 1
  else if Z.even f then f else f + 1.

(** [calc_elo(r_a, r_b, score_a, k)], the two lines read over the real
    numbers ([Rpower 10 y] for [10 ** y]): the value that the binary64
    evaluation of [Binary64.calc_elo] below approximates. *)
Definition calc_elo (r_a r_b score_a k : Z) : Z :=
  let exp_a := (1 / (1 + Rpower 10 (IZR (r_b - r_a) / 400)))%R in
  round0 (IZR r_a + IZR k * (IZR score_a - exp_a)).



(** ** The rating kernel: the binary64 evaluation *)

(** [calc_elo] as Python evaluates it for arguments of type [int].  A
    [float] is a primitive binary64 number; [+], [-], [*] and [/] on it are
    the operations of IEEE 754 with rounding to nearest, ties to even. *)
Module Binary64.
Import PrimFloat SpecFloat FloatOps.
Local Open Scope float_scope.

(** [float(n)], the conversion that an operator applies to an [int]
    operand next to a [float] one: the nearest binary64 number, a tie going
    to the even mantissa; [OverflowError] beyond the largest one. *)
Definition float_of_int (n : Z) : Exception + float :=
  let x := SF2Prim (binary_normalize prec emax n 0 false) in
  if is_infinity x then inl OverflowError else inr x.

(** An [int] as a number with the mantissa left whole. *)
Definition whole (n : Z) : spec_float :=
  match n with
  | Z0 => S754_zero false
  | Zpos m => S754_finite false m 0
  | Zneg m => S754_finite true m 0
  end.

(** [a / b] on two [int]: the quotient, rounded once. *)
Definition int_truediv (a b : Z) : Exception + float :=
  if (b =? 0)%Z then inl ZeroDivisionError
  else
    let x := SF2Prim (SFdiv prec emax (whole a) (whole b)) in
    if is_infinity x then inl OverflowError else inr x.

(** [pow] of the C library at the base 10, which is where [10 ** w] ends
    for a finite [float] exponent.  The library is taken as a service; the
    one value the standard of C and the interpreter both fix is that of
    the exponent zero. *)
Class Pow : Type := {
  pow10 : float -> float;
  pow10_zero : pow10 0 = 1
}.

(** [10 ** w]: [OverflowError] when the power is out of range. *)
Definition float_pow10 `{Pow} (w : float) : Exception + float :=
  let x := pow10 w in
  if is_infinity x then inl OverflowError else inr x.

(** [x / y] on two [float]. *)
Definition float_truediv (x y : float) : Exception + float :=
  if is_zero y then inl ZeroDivisionError else inr (x / y).

(** [round(x, 0)] on a [float]: the nearest integral value as a [float], a
    tie going to the even neighbour; the sign stays, also on a zero.  With
    the mantissa [m] and the exponent [e < 0] the value is [m / 2^(-e)]:
    [q] is its integral part and [r] the numerator of the fraction. *)
Definition round0 (x : float) : float :=
  match Prim2SF x with
  | S754_finite s m e =>
      if (0 <=? e)%Z then x
      else
        let q := Z.shiftr (Z.pos m) (- e) in
        let r := Z.land (Z.pos m) (Z.ones (- e)) in
        let half := Z.shiftl 1 (- e - 1) in
        let n := if (r <? half)%Z then q
                 else if (half <? r)%Z then (q + 1)%Z
                 else if Z.even q then q else (q + 1)%Z in
        let y := SF2Prim (binary_normalize prec emax n 0 false) in
        if s then - y else y
  | _ => x
  end.

(** [calc_elo(r_a, r_b, score_a, k)] *)
Definition calc_elo `{Pow} (r_a r_b score_a k : Z) : Exception + float :=
  x ← int_truediv (r_b - r_a) 400;
  p ← float_pow10 x;
  exp_a ← float_truediv 1 (1 + p);
  s ← float_of_int score_a;
  k' ← float_of_int k;
  r_a' ← float_of_int r_a;
  inr (round0 (r_a' + k' * (s - exp_a))).


(** The second line of [calc_elo] for a given [exp_a]. *)
Definition update (r_a score_a k : Z) (exp_a : float) : Exception + float :=
  s ← float_of_int score_a;
  k' ← float_of_int k;
  r_a' ← float_of_int r_a;
  inr (round0 (r_a' + k' * (s - exp_a))).






End Binary64.

(** ** The services of pandas *)

(** Ascending order of [Datum] cells; [NaT] sorts last
    ([na_position="last"]). *)
Definition ts_le (t1 t2 : Timestamp) : Prop :=
  match t1, t2 with
  | Some x, Some y => x <= y
  | _, None => True
  | None, Some _ => False
  end.

Definition ts_leb (t1 t2 : Timestamp) : bool :=
  match t1, t2 with
  | Some x, Some y => x <=? y
  | _, None => true
  | None, Some _ => false
  end.

Definition Datum_le (m1 m2 : Match) : Prop := ts_le (Datum m1) (Datum m2).

(** [matches_df.sort_values("Datum")].  The call leaves the algorithm to
    pandas (its default [kind] is "quicksort"), so the embedding takes the
    sort as a service with the contract every sort has: the rows come back
    rearranged, in ascending order of the key.  What happens among rows with
    one and the same [Datum] is not part of the contract. *)
Class SortValues : Type := {
  sort_values : list Match -> list Match;
  sort_values_perm : forall l, Permutation (sort_values l) l;
  sort_values_sorted : forall l, Sorted Datum_le (sort_values l)
}.

(** One sort that meets the contract, and keeps rows with equal keys in
    their order of storage: insertion from the right, a row going in front
    of the first row that is not earlier. *)
Fixpoint insert_row (m : Match) (l : list Match) : list Match :=
  match l with
  | [] => [m]
  | x :: l' =>
      if ts_leb (Datum m) (Datum x) then m :: x :: l' else x :: insert_row m l'
  end.

Definition stable_sort (l : list Match) : list Match :=
  foldr insert_row [] l.

(** [a in players_df["Name"].values] *)
Definition isin (a : string) (values : list string) : bool :=
  existsb (String.eqb a) values.

(** The boolean mask [players_df["Name"] == a], row by row. *)
Definition mask (a : string) (p : Player) : bool := String.eqb (Name p) a.

(** [players_df.loc[players_df["Name"] == a, col]]: the cells of column
    [col] in the rows the mask selects. *)
Definition loc {V : Type} (a : string) (col : Player -> V) (df : list Player)
  : list V :=
  col <$> List.filter (mask a) df.

(** [sel.iat[0]]: the first cell; [IndexError] on an empty selection. *)
Definition iat0 {V : Type} (sel : list V) : option V := head sel.

(** [players_df.loc[players_df["Name"] == a,
                    ["ELO", "Siege", "Niederlagen", "Spiele"]] = [e, s, n, g]]:
    every selected row receives the four values. *)
Definition loc_assign (a : string) (e s n g : Z) (df : list Player)
  : list Player :=
  (fun p => if mask a p then mkPlayer (Name p) e s n g (Pin p) else p) <$> df.

(** [players_df[["ELO", "Siege", "Niederlagen", "Spiele"]] = 0] *)
Definition assign_stats_0 (df : list Player) : list Player :=
  (fun p => mkPlayer (Name p) 0 0 0 0 (Pin p)) <$> df.

(** [players_df["ELO"] = v] *)
Definition assign_ELO (v : Z) (df : list Player) : list Player :=
  (fun p => mkPlayer (Name p) v (Siege p) (Niederlagen p) (Spiele p) (Pin p))
    <$> df.

(** ** The rating engine *)

(** [score_a = 1 if pa > pb else 0] *)
Definition score (pa pb : Z) : Z := if pa >? pb then 1 else 0.

(** The body of the loop of [rebuild_players] for one row of the sorted
    history. *)
Definition rebuild_row (k : Z) (players_df : list Player) (row : Match)
  : option (list Player) :=
  let a := A row in
  let b := B row in
  let pa := PunkteA row in
  let pb := PunkteB row in
  if negb (isin a (Name <$> players_df)) || negb (isin b (Name <$> players_df))
  then Some players_df                                   (* continue *)
  else
    r_a ← iat0 (loc a ELO players_df);
    r_b ← iat0 (loc b ELO players_df);
    let score_a := score pa pb in
    let score_b := 1 - score_a in
    let new_r_a := calc_elo r_a r_b score_a k in
    let new_r_b := calc_elo r_b r_a score_b k in
    s_a ← iat0 (loc a Siege players_df);
    n_a ← iat0 (loc a Niederlagen players_df);
    g_a ← iat0 (loc a Spiele players_df);
    let players_df :=
      loc_assign a new_r_a (s_a + score_a) (n_a + score_b) (g_a + 1) players_df in
    s_b ← iat0 (loc b Siege players_df);
    n_b ← iat0 (loc b Niederlagen players_df);
    g_b ← iat0 (loc b Spiele players_df);
    Some (loc_assign b new_r_b (s_b + score_b) (n_b + score_a) (g_b + 1)
            players_df).

(** [for _, row in matches_sorted.iterrows(): ...] *)
Fixpoint replay (k : Z) (players_df : list Player) (rows : list Match)
  : option (list Player) :=
  match rows with
  | [] => Some players_df
  | row :: rows' =>
      players_df ← rebuild_row k players_df row;
      replay k players_df rows'
  end.

(** The two assignments that open [rebuild_players]. *)
Definition reset (players_df : list Player) : list Player :=
  assign_ELO 1200 (assign_stats_0 players_df).

(** [rebuild_players(players_df, matches_df, k)], as a function of the
    frames' contents.  [players_df.copy()] is the identity on contents; the
    place of the frames in the store is the subject of
    [rebuild_players_call] below. *)
Definition rebuild_players `{SortValues}
    (players_df : list Player) (matches_df : list Match) (k : Z)
  : option (list Player) :=
  let players_df := reset players_df in
  match matches_df with
  | [] => Some players_df                                (* matches_df.empty *)
  | _ :: _ =>
      let matches_sorted := sort_values matches_df in
      replay k players_df matches_sorted
  end.

(** One statement that updates, in place, the frame at address [l] of the
    store of frames. *)
Definition write_frame (l : nat) (f : list Player -> option (list Player))
    (h : gmap nat (list Player)) : option (gmap nat (list Player)) :=
  df ← h !! l;
  df' ← f df;
  Some (<[l := df']> h).

(** The loop of [rebuild_players], writing the frame at [l]. *)
Fixpoint replay_at (k : Z) (l : nat) (h : gmap nat (list Player))
    (rows : list Match) : option (gmap nat (list Player)) :=
  match rows with
  | [] => Some h
  | row :: rows' =>
      h ← write_frame l (fun df => rebuild_row k df row) h;
      replay_at k l h rows'
  end.

(** The call seen from the caller.  Python hands the frame over by
    reference: [arg] is the address of the caller's frame in the store [h].
    [players_df = players_df.copy()] allocates a new frame and rebinds the
    local name to it; every later statement of the function reads and writes
    the frame the local name points to, and that address is returned. *)
Definition rebuild_players_call `{SortValues}
    (h : gmap nat (list Player)) (arg : nat) (matches_df : list Match) (k : Z)
  : option (nat * gmap nat (list Player)) :=
  df ← h !! arg;
  let players_df := fresh (dom h) in
  let h := <[players_df := df]> h in                 (* players_df.copy() *)
  h ← write_frame players_df (fun df => Some (assign_stats_0 df)) h;
  h ← write_frame players_df (fun df => Some (assign_ELO 1200 df)) h;
  match matches_df with
  | [] => Some (players_df, h)
  | _ :: _ =>
      let matches_sorted := sort_values matches_df in
      h ← replay_at k players_df h matches_sorted;
      Some (players_df, h)
  end.

(** [ratings.setdefault(key, v)] *)
Definition setdefault (key : string) (v : Z) (ratings : gmap string Z)
  : gmap string Z :=
  match ratings !! key with
  | Some _ => ratings
  | None => <[key := v]> ratings
  end.

(** The body of the loop of [elo_history] for one row; the state is the
    dict [ratings] and the list [history]. *)
Definition history_row (player : string) (k : Z)
    (st : gmap string Z * list (Timestamp * Z)) (row : Match)
  : option (gmap string Z * list (Timestamp * Z)) :=
  let '(ratings, history) := st in
  let a := A row in
  let b := B row in
  let pa := PunkteA row in
  let pb := PunkteB row in
  let ratings := setdefault a 1200 ratings in
  let ratings := setdefault b 1200 ratings in
  ra ← ratings !! a;
  rb ← ratings !! b;
  let score_a := score pa pb in
  let score_b := 1 - score_a in
  let new_ra := calc_elo ra rb score_a k in
  let new_rb := calc_elo rb ra score_b k in
  let ratings := <[a := new_ra]> ratings in
  let ratings := <[b := new_rb]> ratings in
  if String.eqb a player then Some (ratings, history ++ [(Datum row, new_ra)])
  else if String.eqb b player then Some (ratings, history ++ [(Datum row, new_rb)])
  else Some (ratings, history).

Fixpoint history_loop (player : string) (k : Z)
    (st : gmap string Z * list (Timestamp * Z)) (rows : list Match)
  : option (gmap string Z * list (Timestamp * Z)) :=
  match rows with
  | [] => Some st
  | row :: rows' =>
      st ← history_row player k st row;
      history_loop player k st rows'
  end.

(** [elo_history(player, matches_df, k)] *)
Definition elo_history `{SortValues}
    (player : string) (matches_df : list Match) (k : Z)
  : option (list (Timestamp * Z)) :=
  let matches_sorted := sort_values matches_df in
  snd <$> history_loop player k (∅, []) matches_sorted.

(** ** Vocabulary of the statements *)

(** The first row a mask selects: the row every [.iat[0]] reads. *)
Definition first_row (a : string) (df : list Player) : option Player :=
  head (List.filter (mask a) df).

(** The counters of a row add up and are not negative. *)
Definition stats_ok (p : Player) : Prop :=
  Siege p + Niederlagen p = Spiele p
  /\ 0 <= Siege p /\ 0 <= Niederlagen p /\ 0 <= Spiele p.

(** Both names of a match are names of the roster. *)
Definition both_listed (players_df : list Player) (m : Match) : bool :=
  isin (A m) (Name <$> players_df) && isin (B m) (Name <$> players_df).

(** The player takes part in the match. *)
Definition takes_part (player : string) (m : Match) : bool :=
  String.eqb (A m) player || String.eqb (B m) player.


(** The rating [elo_history] holds for a name: the dict entry, or the 1200
    every name starts from. *)
Definition rate (ratings : gmap string Z) (n : string) : Z :=
  default 1200 (ratings !! n).


(** ** Counting rows *)

(** The number of rows a condition selects. *)
Definition count_if (f : Match -> bool) (rows : list Match) : Z :=
  Z.of_nat (length (List.filter f rows)).

(** The three counters a name should carry after the given matches: every
    row counts once for its side A and once for its side B; side A wins a
    row when [PunkteA > PunkteB], side B wins it otherwise. *)
Definition games_of (n : string) (rows : list Match) : Z :=
  count_if (fun m => String.eqb (A m) n) rows
  + count_if (fun m => String.eqb (B m) n) rows.

Definition wins_of (n : string) (rows : list Match) : Z :=
  count_if (fun m => String.eqb (A m) n && (PunkteA m >? PunkteB m)) rows
  + count_if (fun m => String.eqb (B m) n && negb (PunkteA m >? PunkteB m)) rows.

Definition losses_of (n : string) (rows : list Match) : Z :=
  count_if (fun m => String.eqb (A m) n && negb (PunkteA m >? PunkteB m)) rows
  + count_if (fun m => String.eqb (B m) n && (PunkteA m >? PunkteB m)) rows.

(** ** The confirmation workflow *)

(** The three frames of the page, as a run holds them after loading them
    and as [save_csv] receives them.  A frame read from a CSV file carries
    the index 0, 1, ..., so an index label is a position in the list. *)
Record Tables : Type := mkTables {
  players : list Player;
  matches : list Match;
  pending : list PendingMatch
}.

(** What a handler shows: [st.error], [st.success]. *)
Inductive Message : Type :=
| st_error (msg : string)
| st_success (msg : string).

(** ["Match speichern"]: [current_player] reports [pa : pb] against [b] at
    the time [ts_now] of the clock. *)
Definition match_speichern (ts_now : Z) (current_player b : string) (pa pb : Z)
    (t : Tables) : Tables * Message :=
  if String.eqb current_player b then
    (t, st_error "Spieler dürfen nicht identisch sein.")
  else
    let row :=
      mkPending (mkMatch (Some ts_now) current_player b pa pb)
        true    (* confA (du) *)
        false   (* confB *) in
    (* pending.loc[len(pending)] = [...]: the label len(pending) is new *)
    (mkTables (players t) (matches t) (pending t ++ [row]),
     st_success "Match gespeichert! Es wartet jetzt auf Bestätigung des Gegners.").

(** The mask of [to_confirm] on one row. *)
Definition awaits (current_player : string) (row : PendingMatch) : bool :=
  (String.eqb (A (cols row)) current_player && negb (confA row))
  || (String.eqb (B (cols row)) current_player && negb (confB row)).

(** [to_confirm]: the selected rows with their index labels. *)
Definition to_confirm (current_player : string) (pending : list PendingMatch)
  : list (nat * PendingMatch) :=
  List.filter (fun ir => awaits current_player ir.2) (imap pair pending).

Definition set_confA (row : PendingMatch) : PendingMatch :=
  mkPending (cols row) true (confB row).

Definition set_confB (row : PendingMatch) : PendingMatch :=
  mkPending (cols row) (confA row) true.

(** ["Bestätigen"] on the row [row] drawn with label [idx].  The label is
    in range wherever the page calls this handler. *)
Definition bestaetigen `{SortValues}
    (current_player : string) (idx : nat) (row : PendingMatch) (t : Tables)
  : option Tables :=
  let pending :=
    if String.eqb (A (cols row)) current_player
    then alter set_confA idx (pending t)
    else alter set_confB idx (pending t) in
  cur ← pending !! idx;
  (* Wenn beide bestätigt, Match finalisieren *)
  if confA cur && confB cur then
    let matches := matches t ++ [cols cur] in
    let pending := delete idx pending in
    players ← rebuild_players (players t) matches 32;
    Some (mkTables players matches pending)
  else
    Some (mkTables (players t) (matches t) pending).

(** ["Ablehnen"] on the row drawn with label [idx]:
    [pending.drop(idx, inplace=True)], a [KeyError] when the label is not in
    the frame. *)
Definition ablehnen (idx : nat) (t : Tables) : option (Tables * Message) :=
  _ ← pending t !! idx;
  Some (mkTables (players t) (matches t) (delete idx (pending t)),
        st_success "Match abgelehnt und entfernt.").

(** A click that reaches the page.  A button answers only in a run that
    draws it. *)
Inductive Click : Type :=
| MatchSpeichern (pa : Z) (b : string) (pb : Z)
| Bestaetigen (idx : nat)
| Ablehnen (idx : nat).

(** [st.button("Bestätigen", key=f"conf_{idx}")] and
    [st.button("Ablehnen", key=f"rej_{idx}")]: whether the click of the run
    was on this button. *)
Definition conf_clicked (click : Click) (idx : nat) : bool :=
  match click with
  | Bestaetigen i => Nat.eqb i idx
  | _ => false
  end.

Definition rej_clicked (click : Click) (idx : nat) : bool :=
  match click with
  | Ablehnen i => Nat.eqb i idx
  | _ => false
  end.

(** How a run of the script ends: at its last line, at [st.stop()] or at
    [st.rerun()], or with an exception that nothing catches. *)
Inductive Ending : Type :=
| finished
| uncaught (e : Exception).

(** The loop over the rows of [to_confirm].  Each turn first writes the
    line of the match, with [row['Datum'].strftime(...)], which raises
    [ValueError] on [NaT]; then it draws the two buttons of the row.  A
    clicked button runs its handler and ends the run with [st.rerun()]. *)
Fixpoint offene_matches `{SortValues} (current_player : string) (click : Click)
    (to_confirm : list (nat * PendingMatch)) (t : Tables)
    (shown : option Message) : Tables * option Message * Ending :=
  match to_confirm with
  | [] => (t, shown, finished)
  | (idx, row) :: to_confirm =>
      match Datum (cols row) with
      | None => (t, shown, uncaught ValueError)
      | Some _ =>
          if conf_clicked click idx then
            match bestaetigen current_player idx row t with
            | Some t' => (t', shown, finished)
            | None => (t, shown, uncaught LookupError)
            end
          else if rej_clicked click idx then
            match ablehnen idx t with
            | Some (t', msg) => (t', Some msg, finished)
            | None => (t, shown, uncaught LookupError)
            end
          else offene_matches current_player click to_confirm t shown
      end
  end.

(** One run of the match view for the logged-in [current_player]: the
    section "Match eintragen", whose button exists when at least two
    players are registered, and then the loop over the open matches.  The
    result is the tables as they are stored when the run ends, what the
    handler of the click has shown, and how the run ends. *)
Definition run `{SortValues}
    (ts_now : Z) (current_player : string) (click : Click) (t : Tables)
  : Tables * option Message * Ending :=
  let '(t, shown) :=
    match click with
    | MatchSpeichern pa b pb =>
        if (length (players t) <? 2)%nat then (t, None)
        else
          let '(t', msg) := match_speichern ts_now current_player b pa pb t in
          (t', Some msg)
    | _ => (t, None)
    end in
  offene_matches current_player click (to_confirm current_player (pending t))
    t shown.

(** Whether [strftime] takes the date of the row. *)
Definition readable (row : PendingMatch) : bool :=
  match Datum (cols row) with
  | Some _ => true
  | None => false
  end.

(** The row for which the page draws the buttons [conf_idx] and [rej_idx],
    if it draws them: the row with the label [idx] awaits the logged-in
    player, and the loop gets as far as this row, which it does when every
    row of [to_confirm] up to it has a date that [strftime] takes. *)
Definition drawn (current_player : string) (pending : list PendingMatch)
    (idx : nat) : option PendingMatch :=
  row ← pending !! idx;
  if awaits current_player row
     && forallb readable
          (List.filter (awaits current_player) (take (S idx) pending))
  then Some row else None.

(** How a run ends in which no handler is reached: the loop goes through
    all rows of [to_confirm] and raises at the first one without a readable
    date. *)
Definition loop_ending (current_player : string) (pending : list PendingMatch)
  : Ending :=
  if forallb readable (List.filter (awaits current_player) pending)
  then finished else uncaught ValueError.


(** ** Concrete rosters and histories *)

Module Examples.

Local Open Scope string_scope.

Definition anna : Player := mkPlayer "Anna" 1200 0 0 0 "$2b$12$anna".
Definition bert : Player := mkPlayer "Bert" 1200 0 0 0 "$2b$12$bert".
Definition cleo : Player := mkPlayer "Cleo" 1200 0 0 0 "$2b$12$cleo".

(** Anna beats Bert 11:8 and Cleo 11:5; both rows carry one timestamp. *)
Definition anna_bert : Match := mkMatch (Some 100) "Anna" "Bert" 11 8.
Definition anna_cleo : Match := mkMatch (Some 100) "Anna" "Cleo" 11 5.
Definition anna_cleo_later : Match := mkMatch (Some 200) "Anna" "Cleo" 11 5.

(** Anna has reported her win over Bert; Bert has not answered yet. *)
Definition reported : Tables :=
  mkTables [anna; bert] [] [mkPending anna_bert true false].

(** The same report behind a pending row whose date could not be read:
    somebody reported a match of Bert against Anna, and the [Datum] cell of
    that row came back from the file as [NaT]. *)
Definition undated : Tables :=
  mkTables [anna; bert] []
    [mkPending (mkMatch None "Bert" "Anna" 11 9) false true;
     mkPending anna_bert true false].

End Examples.


(** ** The last five matches of the page *)

(** Descending order of [Datum] cells, for [ascending=False]; [NaT] still
    sorts last. *)
Definition ts_ge (t1 t2 : Timestamp) : Prop :=
  match t1, t2 with
  | Some x, Some y => y <= x
  | _, None => True
  | None, Some _ => False
  end.

Definition ts_geb (t1 t2 : Timestamp) : bool :=
  match t1, t2 with
  | Some x, Some y => y <=? x
  | _, None => true
  | None, Some _ => false
  end.

Definition Datum_ge (m1 m2 : Match) : Prop := ts_ge (Datum m1) (Datum m2).

(** [matches.sort_values("Datum", ascending=False)], a service of pandas
    like [sort_values]: the rows come back rearranged, latest first. *)
Class SortValuesDescending : Type := {
  sort_values_descending : list Match -> list Match;
  sort_values_descending_perm :
    forall l, Permutation (sort_values_descending l) l;
  sort_values_descending_sorted :
    forall l, Sorted Datum_ge (sort_values_descending l)
}.

(** One such sort, by insertion. *)
Fixpoint insert_row_descending (m : Match) (l : list Match) : list Match :=
  match l with
  | [] => [m]
  | x :: l' =>
      if ts_geb (Datum m) (Datum x) then m :: x :: l'
      else x :: insert_row_descending m l'
  end.

Definition descending_sort (l : list Match) : list Match :=
  foldr insert_row_descending [] l.

(** What the section "Letzte 5 Matches" shows: the note that nothing has
    been played, or the table [recent]. *)
Inductive Letzte : Type :=
| noch_keine_spiele
| tabelle (recent : list Match).

Definition letzte_matches `{SortValuesDescending} (matches : list Match)
  : Letzte :=
  match matches with
  | [] => noch_keine_spiele                              (* matches.empty *)
  | _ :: _ => tabelle (take 5 (sort_values_descending matches))   (* .head(5) *)
  end.

(** ** The rating curve of the page *)



(** ** Login, registration and the session *)

(** The two calls into the bcrypt library, taken as a service.  [hashpw pin
    salt] is [bcrypt.hashpw(pin.encode(), salt).decode()] for the salt that
    [bcrypt.gensalt()] drew, and [checkpw pin stored] is
    [bcrypt.checkpw(pin.encode(), stored.encode())].  Either call raises
    [ValueError] for an argument the library does not take ([None]): a
    stored value that is no hash of its own, a password it finds too long.
    The contract is what the library documents for a call that returns: a
    hash made with a fresh salt carries the prefix of its version, and it
    accepts the password it was made from.  That a hash refuses every other
    password is not part of the contract. *)
Class Bcrypt : Type := {
  hashpw : string -> string -> option string;
  checkpw : string -> string -> option bool;
  hashpw_prefix : forall pin salt h,
    hashpw pin salt = Some h -> String.prefix "$2b$" h = true;
  checkpw_hashpw : forall pin salt h,
    hashpw pin salt = Some h -> checkpw pin h = Some true
}.

(** [hash_pin(pin)], with the salt that [gensalt()] returns made
    explicit. *)
Definition hash_pin `{Bcrypt} (pin salt : string) : option string :=
  hashpw pin salt.

(** [stored.startswith("$2b$") or stored.startswith("$2a$")] *)
Definition is_hash (stored : string) : bool :=
  String.prefix "$2b$" stored || String.prefix "$2a$" stored.

(** [check_pin(pin, stored)] *)
Definition check_pin `{Bcrypt} (pin stored : string) : option bool :=
  if is_hash stored then
    (* bcrypt-Hash *)
    checkpw pin stored
  else
    (* Legacy: Klartext *)
    Some (String.eqb pin stored).

(** [st.session_state]: the three keys of the page. *)
Inductive View : Type := spiel | regeln.

Record Session : Type := mkSession {
  logged_in : bool;
  current_player : option string;
  view_mode : View
}.

(** The session of a first visit. *)
Definition new_session : Session := mkSession false None spiel.

(** What the sidebar shows after a click. *)
Inductive Note : Type :=
| note_error (msg : string)
| note_warning (msg : string)
| note_success (msg : string).

(** [players.loc[players["Name"] == a, "Pin"] = v] *)
Definition loc_set_Pin (a v : string) (df : list Player) : list Player :=
  (fun p => if mask a p
            then mkPlayer (Name p) (ELO p) (Siege p) (Niederlagen p) (Spiele p) v
            else p) <$> df.

(** ["Einloggen"] for the chosen name and the typed PIN: the session and
    the roster as stored after the handler, or the exception that ends the
    run before anything is written. *)
Definition einloggen `{Bcrypt} (login_name login_pin salt : string)
    (s : Session) (players : list Player)
  : Exception + (Session * list Player * option Note) :=
  stored_pin ← or_raise LookupError (iat0 (loc login_name Pin players));
  ok ← or_raise ValueError (check_pin login_pin stored_pin);
  if ok : bool then
    (* Falls PIN noch im Klartext war: sofort hash speichern *)
    players ←
      (if negb (String.prefix "$2b$" stored_pin)
          && negb (String.prefix "$2a$" stored_pin)
       then
         h ← or_raise ValueError (hash_pin login_pin salt);
         inr (loc_set_Pin login_name h players)
       else inr players);
    inr (mkSession true (Some login_name) (view_mode s), players, None)
  else
    inr (s, players, Some (note_error "Falsche PIN")).

(** ["Registrieren"] for the typed name and the PIN typed twice. *)
Definition registrieren `{Bcrypt} (reg_name reg_pin1 reg_pin2 salt : string)
    (players : list Player) : Exception + (list Player * Note) :=
  if String.eqb reg_name "" || String.eqb reg_pin1 "" then
    inr (players, note_warning "Name und PIN eingeben.")
  else if negb (String.eqb reg_pin1 reg_pin2) then
    inr (players, note_warning "PINs stimmen nicht überein.")
  else if isin reg_name (Name <$> players) then
    inr (players, note_warning "Spieler existiert bereits.")
  else
    h ← or_raise ValueError (hash_pin reg_pin1 salt);
    (* players.loc[len(players)] = [...]: the label len(players) is new *)
    inr (players ++ [mkPlayer reg_name 1200 0 0 0 h],
         note_success (reg_name ++ " angelegt. Jetzt einloggen.")).

(** The clicks the sidebar takes. *)
Inductive SidebarClick : Type :=
| Einloggen (login_name login_pin salt : string)
| Registrieren (reg_name reg_pin1 reg_pin2 salt : string)
| Einzelmatch
| Regeln
| Logout.

(** A click anywhere on the page. *)
Inductive Event : Type :=
| in_sidebar (c : SidebarClick)
| in_page (c : Click).

(** One run of the whole script for one click: the session and the tables
    as they are when the run is over, however it ends.  An exception in
    the sidebar ends the run before anything is written.  A widget answers
    only in a run that draws it: the login form while nobody is logged in,
    and only for a name the select box offers; the menu while somebody is
    logged in; the match section while somebody is logged in and the view
    is the match view ([st.stop()] ends the run before it otherwise).  For
    a click that no widget of the run answers, session and tables stand.
    [logged_in] and [current_player] are written together, so a session
    that is logged in without a player does not arise; the script leaves it
    alone. *)
Definition script `{SortValues} `{Bcrypt}
    (ts_now : Z) (ev : Event) (s : Session) (t : Tables)
  : Session * Tables :=
  match ev with
  | in_sidebar c =>
      if negb (logged_in s) then
        match c with
        | Einloggen login_name login_pin salt =>
            if isin login_name (Name <$> players t) then
              match einloggen login_name login_pin salt s (players t) with
              | inr (s', players', _) =>
                  (s', mkTables players' (matches t) (pending t))
              | inl _ => (s, t)
              end
            else (s, t)
        | Registrieren reg_name reg_pin1 reg_pin2 salt =>
            match registrieren reg_name reg_pin1 reg_pin2 salt (players t) with
            | inr (players', _) => (s, mkTables players' (matches t) (pending t))
            | inl _ => (s, t)
            end
        | _ => (s, t)
        end
      else
        match c with
        | Einzelmatch => (mkSession (logged_in s) (current_player s) spiel, t)
        | Regeln => (mkSession (logged_in s) (current_player s) regeln, t)
        | Logout => (mkSession false None (view_mode s), t)
        | _ => (s, t)
        end
  | in_page c =>
      if negb (logged_in s) then (s, t)                         (* st.stop() *)
      else
        match view_mode s, current_player s with
        | spiel, Some player =>
            let '(t', _, _) := run ts_now player c t in
            (s, t')
        | _, _ => (s, t)
        end
  end.

(** A stand-in that meets the contract of [Bcrypt], for concrete runs; it
    is not a hash.  It takes every password, and it checks against a
    stored value that carries its prefix. *)
Definition stand_in_hashpw (pin salt : string) : option string :=
  Some ("$2b$" ++ pin)%string.

Definition stand_in_checkpw (pin stored : string) : option bool :=
  if String.prefix "$2b$" stored
  then Some (String.eqb stored ("$2b$" ++ pin)%string)
  else None.

(** Egon registered before PINs were hashed: his row still holds the PIN
    as typed. *)
Definition egon : Player := mkPlayer "Egon" 1200 0 0 0 "4711".

(** ** Vocabulary of the workflow statements *)

(** The flag the handler does not set: the confirmation of the other
    side. *)
Definition other_flag (current_player : string) (row : PendingMatch) : bool :=
  if String.eqb (A (cols row)) current_player then confB row else confA row.

(** The flag the handler sets. *)
Definition set_own_flag (current_player : string) (row : PendingMatch)
  : PendingMatch -> PendingMatch :=
  if String.eqb (A (cols row)) current_player then set_confA else set_confB.

(** The two session keys agree: somebody is logged in exactly when a
    current player is set. *)
Definition coupled (s : Session) : Prop :=
  logged_in s = true <-> is_Some (current_player s).

(** * Properties *)

(** ** The rating kernel *)

Lemma Int_part_bounds (x : R) : (IZR (Int_part x) <= x < IZR (Int_part x) + 1)%R.
Proof.
  unfold Int_part. rewrite minus_IZR.
  destruct (archimed x) as [Hup Hlow]. lra.
Qed.

(** A real strictly within one half of an integer rounds to that integer. *)
Lemma round0_near (x : R) (n : Z) :
  (IZR n - 1 / 2 < x < IZR n + 1 / 2)%R -> round0 x = n.
Proof.
  intros [Hlo Hhi]. unfold round0.
  destruct (Int_part_bounds x) as [Flo Fhi].
  set (f := Int_part x) in *.
  assert (Hcase : f = n \/ f = n - 1).
  { assert (H1 : (IZR f < IZR (n + 1))%R) by (rewrite plus_IZR; lra).
    assert (H2 : (IZR (n - 1) < IZR (f + 1))%R)
      by (rewrite minus_IZR, plus_IZR; lra).
    apply lt_IZR in H1, H2. lia. }
  destruct Hcase as [-> | ->].
  - destruct (Rlt_dec (x - IZR n) (1 / 2)) as [_ | Hn]; [reflexivity | lra].
  - rewrite minus_IZR in *.
    destruct (Rlt_dec (x - (IZR n - 1)) (1 / 2)) as [Hn | _]; [lra |].
    destruct (Rlt_dec (1 / 2) (x - (IZR n - 1))) as [_ | Hn]; [lia | lra].
Qed.


(** The result of [round0] is a nearest integer. *)
Lemma round0_nearest (x : R) : (Rabs (IZR (round0 x) - x) <= 1 / 2)%R.
Proof.
  unfold round0. destruct (Int_part_bounds x) as [Flo Fhi].
  set (f := Int_part x) in *.
  destruct (Rlt_dec (x - IZR f) (1 / 2)) as [H1 | H1].
  - apply Rabs_le. lra.
  - destruct (Rlt_dec (1 / 2) (x - IZR f)) as [H2 | H2].
    + rewrite plus_IZR. apply Rabs_le. lra.
    + destruct (Z.even f); [| rewrite plus_IZR]; apply Rabs_le; lra.
Qed.

(** On a tie the even neighbour is returned. *)
Lemma round0_tie_even (x : R) :
  Rabs (IZR (round0 x) - x) = (1 / 2)%R -> Z.even (round0 x) = true.
Proof.
  unfold round0. destruct (Int_part_bounds x) as [Flo Fhi].
  set (f := Int_part x) in *.
  destruct (Rlt_dec (x - IZR f) (1 / 2)) as [H1 | H1].
  - intros Habs. exfalso.
    rewrite Rabs_left1 in Habs by lra. lra.
  - destruct (Rlt_dec (1 / 2) (x - IZR f)) as [H2 | H2].
    + intros Habs. exfalso. rewrite plus_IZR in Habs.
      rewrite Rabs_right in Habs by lra. lra.
    + intros _. destruct (Z.even f) eqn:Ev; [exact Ev |].
      rewrite Z.even_add, Ev. reflexivity.
Qed.

(** Equal ratings: the expected score is one half, and with the factor 32
    of the page the winner gains 16 and the loser drops 16.  Here the
    binary64 evaluation is exact: [10 ** 0.0 = 1.0], [1 / 2.0 = 0.5]. *)
Lemma exp_equal_ratings (r : Z) :
  (1 / (1 + Rpower 10 (IZR (r - r) / 400)) = 1 / 2)%R.
Proof.
  rewrite Z.sub_diag.
  replace (0 / 400)%R with 0%R by lra.
  rewrite Rpower_O by lra. lra.
Qed.

Lemma calc_elo_equal_win (r : Z) : calc_elo r r 1 32 = r + 16.
Proof.
  unfold calc_elo. rewrite exp_equal_ratings.
  apply round0_near. rewrite plus_IZR. lra.
Qed.

Lemma calc_elo_equal_loss (r : Z) : calc_elo r r 0 32 = r - 16.
Proof.
  unfold calc_elo. rewrite exp_equal_ratings.
  apply round0_near. rewrite minus_IZR. lra.
Qed.

(** Ratings 16 points apart, as after one match between equals.  The
    exponent is [±1/25]; the 25th root of ten lies between 1.07 and 1.2,
    which places the update well inside a rounding interval. *)
Lemma root25_pow : (Rpower 10 (1 / 25) ^ 25 = 10)%R.
Proof.
  rewrite <- Rpower_pow by apply exp_pos.
  rewrite Rpower_mult.
  replace (1 / 25 * INR 25)%R with 1%R by (simpl; lra).
  apply Rpower_1. lra.
Qed.

Lemma root25_bounds : (107 / 100 < Rpower 10 (1 / 25) < 12 / 10)%R.
Proof.
  pose proof root25_pow as Hpow.
  assert (Hpos : (0 < Rpower 10 (1 / 25))%R) by apply exp_pos.
  assert (Hlo : ((107 / 100) ^ 25 < 10)%R) by (simpl; lra).
  assert (Hhi : (10 < (12 / 10) ^ 25)%R) by (simpl; lra).
  split.
  - destruct (Rlt_le_dec (107 / 100) (Rpower 10 (1 / 25))) as [Hlt | Hle];
      [exact Hlt | exfalso].
    assert (Hp : (Rpower 10 (1 / 25) ^ 25 <= (107 / 100) ^ 25)%R)
      by (apply pow_incr; lra).
    lra.
  - destruct (Rlt_le_dec (Rpower 10 (1 / 25)) (12 / 10)) as [Hlt | Hle];
      [exact Hlt | exfalso].
    assert (Hp : ((12 / 10) ^ 25 <= Rpower 10 (1 / 25) ^ 25)%R)
      by (apply pow_incr; lra).
    lra.
Qed.

Lemma calc_elo_1216_1200_win : calc_elo 1216 1200 1 32 = 1231.
Proof.
  unfold calc_elo. apply round0_near.
  replace (IZR (1200 - 1216) / 400)%R with (- (1 / 25))%R
    by (change (1200 - 1216) with (-16); lra).
  rewrite Rpower_Ropp.
  destruct root25_bounds as [Hlo Hhi].
  set (u := Rpower 10 (1 / 25)) in *.
  replace (1 / (1 + / u))%R with (1 - / (u + 1))%R by (field; lra).
  assert (Hw : (/ (u + 1) * (u + 1) = 1)%R) by (field; lra).
  set (w := (/ (u + 1))%R) in *.
  assert (Hwpos : (0 < w)%R) by (apply Rinv_0_lt_compat; lra).
  split; nra.
Qed.

Lemma calc_elo_1200_1216_loss : calc_elo 1200 1216 0 32 = 1185.
Proof.
  unfold calc_elo. apply round0_near.
  replace (IZR (1216 - 1200) / 400)%R with (1 / 25)%R
    by (change (1216 - 1200) with 16; lra).
  destruct root25_bounds as [Hlo Hhi].
  set (u := Rpower 10 (1 / 25)) in *.
  replace (1 / (1 + u))%R with (/ (u + 1))%R by (field; lra).
  assert (Hw : (/ (u + 1) * (u + 1) = 1)%R) by (field; lra).
  set (w := (/ (u + 1))%R) in *.
  assert (Hwpos : (0 < w)%R) by (apply Rinv_0_lt_compat; lra).
  split; nra.
Qed.

Lemma calc_elo_1200_win : calc_elo 1200 1200 1 32 = 1216.
Proof. exact (calc_elo_equal_win 1200). Qed.

Lemma calc_elo_1200_loss : calc_elo 1200 1200 0 32 = 1184.
Proof. exact (calc_elo_equal_loss 1200). Qed.

(** Concrete inputs are evaluated with the kernel left folded and then
    rewritten with the values above. *)
Ltac eval_elo :=
  cbv -[calc_elo];
  rewrite ?calc_elo_1200_win, ?calc_elo_1200_loss,
          ?calc_elo_1216_1200_win, ?calc_elo_1200_1216_loss.

(** ** Equal ratings *)




(** ** The binary64 evaluation *)

Section Binary64Facts.
Import PrimFloat.
Context `{Binary64.Pow}.

(** Between equals the first line gives [exp_a = 0.5] without rounding:
    [0 / 400] is [0.0], [10 ** 0.0] is [1.0] and [1 / 2.0] is [0.5]. *)
Lemma calc_elo_binary64_equal (r score_a k : Z) :
  Binary64.calc_elo r r score_a k = Binary64.update r score_a k 0.5%float.
Proof.
  unfold Binary64.calc_elo, Binary64.update. rewrite Z.sub_diag.
  change (Binary64.int_truediv 0 400) with (inr 0%float : Exception + float).
  cbn [mbind raises_bind].
  unfold Binary64.float_pow10. rewrite Binary64.pow10_zero.
  change (is_infinity 1) with false. cbn [mbind raises_bind].
  change (Binary64.float_truediv 1 (1 + 1))
    with (inr 0.5%float : Exception + float).
  reflexivity.
Qed.

End Binary64Facts.






Section Binary64Examples.
Import PrimFloat.
Context `{Binary64.Pow}.

(** The worked example of the specification, as floats: the winner of a
    match between two players at 1200 goes to 1216.0, the loser to
    1184.0. *)
Lemma calc_elo_binary64_1200 :
  Binary64.calc_elo 1200 1200 1 32 = inr 1216%float
  /\ Binary64.calc_elo 1200 1200 0 32 = inr 1184%float.
Proof. rewrite !calc_elo_binary64_equal. split; vm_compute; reflexivity. Qed.


End Binary64Examples.


(** ** The order of timestamps and the sort *)

Lemma ts_leb_le (t1 t2 : Timestamp) : ts_leb t1 t2 = true <-> ts_le t1 t2.
Proof.
  destruct t1 as [x |], t2 as [y |]; simpl; try tauto.
  - apply Z.leb_le.
  - split; [discriminate | contradiction].
Qed.

Lemma ts_le_refl (t : Timestamp) : ts_le t t.
Proof. destruct t; simpl; [lia | exact I]. Qed.

Lemma ts_le_trans (t1 t2 t3 : Timestamp) :
  ts_le t1 t2 -> ts_le t2 t3 -> ts_le t1 t3.
Proof. destruct t1, t2, t3; simpl; try tauto; lia. Qed.

Lemma ts_le_antisym (t1 t2 : Timestamp) : ts_le t1 t2 -> ts_le t2 t1 -> t1 = t2.
Proof.
  destruct t1, t2; simpl; try tauto.
  intros H1 H2. f_equal. lia.
Qed.

Lemma ts_le_total (t1 t2 : Timestamp) : ts_le t1 t2 \/ ts_le t2 t1.
Proof. destruct t1, t2; simpl; try tauto; lia. Qed.

#[local] Instance Datum_le_trans : Transitive Datum_le.
Proof. intros x y z. unfold Datum_le. apply ts_le_trans. Qed.

(** In a sorted list the head is no later than any row. *)
Lemma Sorted_head_le (x : Match) (l : list Match) :
  Sorted Datum_le (x :: l) -> forall y, In y (x :: l) -> Datum_le x y.
Proof.
  intros Hs y Hy.
  apply Sorted_StronglySorted in Hs; [| exact Datum_le_trans].
  apply StronglySorted_inv in Hs as [_ Hall].
  destruct Hy as [<- | Hy].
  - apply ts_le_refl.
  - rewrite Forall_forall in Hall. apply Hall.
    apply list_elem_of_In. exact Hy.
Qed.

(** Two sorted arrangements of the same rows coincide when rows that share
    a timestamp are one and the same row. *)
Lemma sorted_arrangement_unique (l1 l2 : list Match) :
  Sorted Datum_le l1 -> Sorted Datum_le l2 -> Permutation l1 l2 ->
  (forall m1 m2, In m1 l1 -> In m2 l1 -> Datum m1 = Datum m2 -> m1 = m2) ->
  l1 = l2.
Proof.
  revert l2. induction l1 as [| x l1 IH]; intros l2 Hs1 Hs2 Hp Hties.
  - apply Permutation_nil in Hp. congruence.
  - destruct l2 as [| y l2].
    + apply Permutation_sym, Permutation_nil in Hp. discriminate.
    + assert (Hy : In y (x :: l1)).
      { apply (Permutation_in y (Permutation_sym Hp)). left. reflexivity. }
      assert (Hx : In x (y :: l2)).
      { apply (Permutation_in x Hp). left. reflexivity. }
      assert (Hxy : x = y).
      { apply Hties; [left; reflexivity | exact Hy |].
        apply ts_le_antisym.
        - apply (Sorted_head_le x l1 Hs1 y Hy).
        - apply (Sorted_head_le y l2 Hs2 x Hx). }
      subst y. f_equal.
      apply IH.
      * apply Sorted_inv in Hs1. tauto.
      * apply Sorted_inv in Hs2. tauto.
      * apply Permutation_cons_inv in Hp. exact Hp.
      * intros m1 m2 H1 H2. apply Hties; right; assumption.
Qed.

Lemma insert_row_perm (m : Match) (l : list Match) :
  Permutation (insert_row m l) (m :: l).
Proof.
  induction l as [| x l IH]; simpl.
  - reflexivity.
  - destruct (ts_leb (Datum m) (Datum x)).
    + reflexivity.
    + rewrite IH. apply perm_swap.
Qed.

Lemma insert_row_sorted (m : Match) (l : list Match) :
  Sorted Datum_le l -> Sorted Datum_le (insert_row m l).
Proof.
  induction l as [| x l IH]; intros Hs; simpl.
  - repeat constructor.
  - destruct (ts_leb (Datum m) (Datum x)) eqn:Hmx.
    + constructor; [exact Hs |].
      constructor. apply ts_leb_le. exact Hmx.
    + apply Sorted_inv in Hs as [Hs Hhd].
      assert (Hxm : Datum_le x m).
      { destruct (ts_le_total (Datum m) (Datum x)) as [Hle | Hle];
          [| exact Hle].
        apply ts_leb_le in Hle. congruence. }
      constructor; [apply IH; exact Hs |].
      destruct l as [| z l]; simpl.
      * constructor. exact Hxm.
      * destruct (ts_leb (Datum m) (Datum z)).
        -- constructor. exact Hxm.
        -- constructor. apply HdRel_inv in Hhd. exact Hhd.
Qed.

Lemma stable_sort_perm (l : list Match) : Permutation (stable_sort l) l.
Proof.
  induction l as [| m l IH]; simpl.
  - reflexivity.
  - rewrite insert_row_perm. constructor. exact IH.
Qed.

Lemma stable_sort_sorted (l : list Match) : Sorted Datum_le (stable_sort l).
Proof.
  induction l as [| m l IH]; simpl.
  - constructor.
  - apply insert_row_sorted. exact IH.
Qed.

(** The insertion sort as the sort of the page. *)
#[export] Instance stable_sort_values : SortValues := {|
  sort_values := stable_sort;
  sort_values_perm := stable_sort_perm;
  sort_values_sorted := stable_sort_sorted
|}.

(** Rows with equal keys leave [stable_sort] in their order of storage. *)
Lemma insert_row_filter (t : Timestamp) (m : Match) (l : list Match) :
  Sorted Datum_le l ->
  List.filter (fun x => bool_decide (Datum x = t)) (insert_row m l)
  = List.filter (fun x => bool_decide (Datum x = t)) (m :: l).
Proof.
  induction l as [| x l IH]; intros Hs.
  - reflexivity.
  - cbn [insert_row]. destruct (ts_leb (Datum m) (Datum x)) eqn:Hmx.
    + reflexivity.
    + assert (Hlt : ~ ts_le (Datum m) (Datum x)).
      { intros Hle. apply ts_leb_le in Hle. congruence. }
      cbn [List.filter]. rewrite IH by (apply Sorted_inv in Hs; tauto).
      cbn [List.filter].
      destruct (bool_decide (Datum m = t)) eqn:Hm;
      destruct (bool_decide (Datum x = t)) eqn:Hx; try reflexivity.
      apply bool_decide_eq_true in Hm, Hx.
      exfalso. apply Hlt. rewrite Hm, Hx. apply ts_le_refl.
Qed.

Lemma stable_sort_stable (t : Timestamp) (l : list Match) :
  List.filter (fun x => bool_decide (Datum x = t)) (stable_sort l)
  = List.filter (fun x => bool_decide (Datum x = t)) l.
Proof.
  induction l as [| m l IH].
  - reflexivity.
  - cbn [stable_sort foldr].
    rewrite insert_row_filter by apply stable_sort_sorted.
    cbn [List.filter]. fold (stable_sort l). rewrite IH. reflexivity.
Qed.

(** ** Frames *)

Lemma iat0_loc {V : Type} (a : string) (col : Player -> V) (df : list Player) :
  iat0 (loc a col df) = col <$> first_row a df.
Proof.
  unfold iat0, loc, first_row.
  destruct (List.filter (mask a) df); reflexivity.
Qed.

Lemma isin_first_row (a : string) (df : list Player) :
  isin a (Name <$> df) = true <-> is_Some (first_row a df).
Proof.
  unfold isin, first_row.
  induction df as [| p df IH]; simpl.
  - split; [discriminate | intros [x Hx]; discriminate].
  - unfold mask at 1. rewrite (String.eqb_sym a (Name p)).
    destruct (String.eqb (Name p) a); simpl.
    + split; [eauto | reflexivity].
    + exact IH.
Qed.


Lemma first_row_Some (a : string) (df : list Player) (p : Player) :
  first_row a df = Some p -> In p df /\ Name p = a.
Proof.
  unfold first_row. intros Hh.
  apply head_Some in Hh as [l' Hl'].
  assert (Hin : In p (List.filter (mask a) df)) by (rewrite Hl'; left; reflexivity).
  apply filter_In in Hin as [Hin Hm].
  split; [exact Hin |]. apply String.eqb_eq. exact Hm.
Qed.

Lemma filter_mask_fmap (f : Player -> Player) (a : string) (df : list Player) :
  (forall p, Name (f p) = Name p) ->
  List.filter (mask a) (f <$> df) = f <$> List.filter (mask a) df.
Proof.
  intros Hf. induction df as [| p df IH].
  - reflexivity.
  - rewrite fmap_cons. cbn [List.filter].
    assert (Hm : mask a (f p) = mask a p) by (unfold mask; rewrite Hf; reflexivity).
    rewrite Hm, IH. destruct (mask a p); reflexivity.
Qed.

Lemma first_row_fmap (f : Player -> Player) (a : string) (df : list Player) :
  (forall p, Name (f p) = Name p) ->
  first_row a (f <$> df) = f <$> first_row a df.
Proof.
  intros Hf. unfold first_row. rewrite filter_mask_fmap by exact Hf.
  destruct (List.filter (mask a) df); reflexivity.
Qed.

Lemma fmap_keeps {V : Type} (col : Player -> V) (f : Player -> Player)
    (df : list Player) :
  (forall p, col (f p) = col p) -> col <$> (f <$> df) = col <$> df.
Proof.
  intros Hf. induction df as [| p df IH]; simpl.
  - reflexivity.
  - rewrite Hf. f_equal. exact IH.
Qed.

Lemma loc_assign_Name (a : string) (e s n g : Z) (df : list Player) :
  Name <$> loc_assign a e s n g df = Name <$> df.
Proof.
  apply fmap_keeps. intros p. destruct (mask a p); reflexivity.
Qed.

Lemma loc_assign_Pin (a : string) (e s n g : Z) (df : list Player) :
  Pin <$> loc_assign a e s n g df = Pin <$> df.
Proof.
  apply fmap_keeps. intros p. destruct (mask a p); reflexivity.
Qed.

Lemma first_row_loc_assign (b a : string) (e s n g : Z) (df : list Player) :
  first_row b (loc_assign a e s n g df)
  = (fun p => if mask a p then mkPlayer (Name p) e s n g (Pin p) else p)
      <$> first_row b df.
Proof.
  unfold loc_assign. apply first_row_fmap.
  intros p. destruct (mask a p); reflexivity.
Qed.

Lemma reset_rows (df : list Player) :
  reset df = (fun p => mkPlayer (Name p) 1200 0 0 0 (Pin p)) <$> df.
Proof.
  unfold reset, assign_ELO, assign_stats_0.
  induction df as [| p df IH]; simpl; [reflexivity |].
  f_equal. exact IH.
Qed.

Lemma reset_Name (df : list Player) : Name <$> reset df = Name <$> df.
Proof. rewrite reset_rows. apply fmap_keeps. reflexivity. Qed.

Lemma reset_Pin (df : list Player) : Pin <$> reset df = Pin <$> df.
Proof. rewrite reset_rows. apply fmap_keeps. reflexivity. Qed.

(** ** One row of the history *)

(** A row that names somebody outside the roster leaves the frame as it
    is. *)
Lemma rebuild_row_skip (k : Z) (df : list Player) (row : Match) :
  both_listed df row = false -> rebuild_row k df row = Some df.
Proof.
  unfold both_listed, rebuild_row. intros Hb.
  destruct (isin (A row) (Name <$> df)), (isin (B row) (Name <$> df));
    simpl in *; try reflexivity; discriminate.
Qed.

(** A row between two listed players: both ratings are read first, then
    the rows of A are written, then the rows of B, whose counters are read
    after the first assignment. *)
Lemma rebuild_row_play (k : Z) (df : list Player) (row : Match) (p_a p_b : Player) :
  first_row (A row) df = Some p_a ->
  first_row (B row) df = Some p_b ->
  let score_a := score (PunkteA row) (PunkteB row) in
  let score_b := 1 - score_a in
  let df1 :=
    loc_assign (A row) (calc_elo (ELO p_a) (ELO p_b) score_a k)
      (Siege p_a + score_a) (Niederlagen p_a + score_b) (Spiele p_a + 1) df in
  exists q_b,
    first_row (B row) df1 = Some q_b /\
    rebuild_row k df row
    = Some (loc_assign (B row) (calc_elo (ELO p_b) (ELO p_a) score_b k)
              (Siege q_b + score_b) (Niederlagen q_b + score_a) (Spiele q_b + 1)
              df1).
Proof.
  intros Ha Hb score_a score_b df1.
  assert (Hq : is_Some (first_row (B row) df1)).
  { unfold df1. rewrite first_row_loc_assign, Hb. simpl. eauto. }
  destruct Hq as [q_b Hq]. exists q_b. split; [exact Hq |].
  unfold rebuild_row.
  assert (Hia : isin (A row) (Name <$> df) = true)
    by (apply isin_first_row; rewrite Ha; eauto).
  assert (Hib : isin (B row) (Name <$> df) = true)
    by (apply isin_first_row; rewrite Hb; eauto).
  rewrite Hia, Hib. simpl.
  rewrite !iat0_loc, Ha, Hb. simpl.
  fold score_a. fold score_b. fold df1.
  rewrite !iat0_loc, Hq. simpl. reflexivity.
Qed.

Lemma both_listed_rows (df : list Player) (row : Match) :
  both_listed df row = true ->
  exists p_a p_b, first_row (A row) df = Some p_a /\ first_row (B row) df = Some p_b.
Proof.
  unfold both_listed. intros Hb. apply andb_prop in Hb as [Ha Hb].
  apply isin_first_row in Ha as [p_a Ha].
  apply isin_first_row in Hb as [p_b Hb].
  eauto.
Qed.

(** The loop body never raises. *)
Lemma rebuild_row_total (k : Z) (df : list Player) (row : Match) :
  is_Some (rebuild_row k df row).
Proof.
  destruct (both_listed df row) eqn:Hb.
  - apply both_listed_rows in Hb as (p_a & p_b & Ha & Hb).
    destruct (rebuild_row_play k df row p_a p_b Ha Hb) as (q_b & _ & ->). eauto.
  - rewrite rebuild_row_skip by exact Hb. eauto.
Qed.

Lemma replay_total (k : Z) (rows : list Match) (df : list Player) :
  is_Some (replay k df rows).
Proof.
  revert df. induction rows as [| row rows IH]; intros df; simpl.
  - eauto.
  - destruct (rebuild_row_total k df row) as [df' ->]. simpl. apply IH.
Qed.

(** An invariant of the frame that the loop body keeps is kept by the
    whole loop. *)
Lemma replay_invariant (P : list Player -> Prop) (k : Z) :
  (forall df row df', P df -> rebuild_row k df row = Some df' -> P df') ->
  forall rows df df', P df -> replay k df rows = Some df' -> P df'.
Proof.
  intros Hstep rows. induction rows as [| row rows IH]; intros df df' HP; simpl.
  - intros [= <-]. exact HP.
  - destruct (rebuild_row k df row) as [df1 |] eqn:Hrow; simpl; [| discriminate].
    apply IH. exact (Hstep df row df1 HP Hrow).
Qed.

(** Rows that name somebody outside the roster can be dropped from the
    replay. *)
Lemma rebuild_row_Name (k : Z) (df : list Player) (row : Match) (df' : list Player) :
  rebuild_row k df row = Some df' -> Name <$> df' = Name <$> df.
Proof.
  destruct (both_listed df row) eqn:Hb.
  - apply both_listed_rows in Hb as (p_a & p_b & Ha & Hb).
    destruct (rebuild_row_play k df row p_a p_b Ha Hb) as (q_b & _ & ->).
    intros [= <-]. rewrite !loc_assign_Name. reflexivity.
  - rewrite rebuild_row_skip by exact Hb. intros [= <-]. reflexivity.
Qed.

Lemma rebuild_row_Pin (k : Z) (df : list Player) (row : Match) (df' : list Player) :
  rebuild_row k df row = Some df' -> Pin <$> df' = Pin <$> df.
Proof.
  destruct (both_listed df row) eqn:Hb.
  - apply both_listed_rows in Hb as (p_a & p_b & Ha & Hb).
    destruct (rebuild_row_play k df row p_a p_b Ha Hb) as (q_b & _ & ->).
    intros [= <-]. rewrite !loc_assign_Pin. reflexivity.
  - rewrite rebuild_row_skip by exact Hb. intros [= <-]. reflexivity.
Qed.

Lemma replay_Name (k : Z) (rows : list Match) (df df' : list Player) :
  replay k df rows = Some df' -> Name <$> df' = Name <$> df.
Proof.
  apply (replay_invariant (fun d => Name <$> d = Name <$> df) k);
    [| reflexivity].
  intros d row d' Hd Hrow. rewrite <- Hd. exact (rebuild_row_Name k d row d' Hrow).
Qed.

Lemma replay_Pin (k : Z) (rows : list Match) (df df' : list Player) :
  replay k df rows = Some df' -> Pin <$> df' = Pin <$> df.
Proof.
  apply (replay_invariant (fun d => Pin <$> d = Pin <$> df) k);
    [| reflexivity].
  intros d row d' Hd Hrow. rewrite <- Hd. exact (rebuild_row_Pin k d row d' Hrow).
Qed.

Lemma both_listed_Name (df df' : list Player) (row : Match) :
  Name <$> df' = Name <$> df -> both_listed df' row = both_listed df row.
Proof. unfold both_listed. intros ->. reflexivity. Qed.

Lemma replay_filter_listed (k : Z) (rows : list Match) (df : list Player) :
  replay k df (List.filter (both_listed df) rows) = replay k df rows.
Proof.
  revert df. induction rows as [| row rows IH]; intros df; simpl.
  - reflexivity.
  - destruct (both_listed df row) eqn:Hb; simpl.
    + destruct (rebuild_row k df row) as [df1 |] eqn:Hrow; simpl; [| reflexivity].
      rewrite <- IH.
      rewrite (filter_ext (both_listed df) (both_listed df1)); [reflexivity |].
      intros m. symmetry. apply both_listed_Name.
      exact (rebuild_row_Name k df row df1 Hrow).
    + rewrite rebuild_row_skip by exact Hb. simpl. apply IH.
Qed.

(** ** The rebuild *)

Section Rebuild.
Context `{SortValues}.

Lemma sort_values_nil : sort_values [] = [].
Proof. apply Permutation_nil. symmetry. apply sort_values_perm. Qed.

(** The function as one replay over the reset frame. *)
Lemma rebuild_players_replay (players_df : list Player) (matches_df : list Match)
    (k : Z) :
  rebuild_players players_df matches_df k
  = replay k (reset players_df) (sort_values matches_df).
Proof.
  unfold rebuild_players. destruct matches_df as [| m l].
  - rewrite sort_values_nil. reflexivity.
  - reflexivity.
Qed.

Lemma rebuild_players_total (players_df : list Player) (matches_df : list Match)
    (k : Z) :
  is_Some (rebuild_players players_df matches_df k).
Proof. rewrite rebuild_players_replay. apply replay_total. Qed.

Lemma rebuild_players_Name (players_df : list Player) (matches_df : list Match)
    (k : Z) (df' : list Player) :
  rebuild_players players_df matches_df k = Some df' ->
  Name <$> df' = Name <$> players_df.
Proof.
  rewrite rebuild_players_replay. intros Hr.
  rewrite (replay_Name _ _ _ _ Hr). apply reset_Name.
Qed.

Lemma rebuild_players_Pin (players_df : list Player) (matches_df : list Match)
    (k : Z) (df' : list Player) :
  rebuild_players players_df matches_df k = Some df' ->
  Pin <$> df' = Pin <$> players_df.
Proof.
  rewrite rebuild_players_replay. intros Hr.
  rewrite (replay_Pin _ _ _ _ Hr). apply reset_Pin.
Qed.

(** C3.  A match that names a player who is not in the roster is passed
    over: the rebuild returns a roster for every input, its result is the
    replay of the listed matches alone, and at any point of the replay such
    a match leaves the frame as it is while the loop goes on with the rows
    after it. *)
Theorem rebuild_skips_unlisted (players_df : list Player)
    (matches_df : list Match) (k : Z) :
  is_Some (rebuild_players players_df matches_df k)
  /\ rebuild_players players_df matches_df k
     = replay k (reset players_df)
         (List.filter (both_listed players_df) (sort_values matches_df))
  /\ (forall df row rest,
        isin (A row) (Name <$> df) = false \/ isin (B row) (Name <$> df) = false ->
        rebuild_row k df row = Some df
        /\ replay k df (row :: rest) = replay k df rest).
Proof.
  split; [apply rebuild_players_total |]. split.
  - rewrite rebuild_players_replay.
    rewrite <- replay_filter_listed.
    rewrite (filter_ext (both_listed (reset players_df)) (both_listed players_df));
      [reflexivity |].
    intros m. apply both_listed_Name, reset_Name.
  - intros df row rest Habs.
    assert (Hb : both_listed df row = false).
    { unfold both_listed. destruct Habs as [-> | ->];
        [reflexivity | apply andb_false_r]. }
    split; [exact (rebuild_row_skip k df row Hb) |].
    cbn [replay]. rewrite (rebuild_row_skip k df row Hb). reflexivity.
Qed.

(** C6.  The stored rating and counters do not reach the result: an empty
    history returns every row with rating 1200 and counters 0, name and pin
    as stored; any history is replayed over exactly these rows; and stored
    values replaced by any others give the same result. *)
Theorem rebuild_resets (players_df : list Player) (matches_df : list Match)
    (k : Z) :
  let fresh_rows := (fun p => mkPlayer (Name p) 1200 0 0 0 (Pin p)) <$> players_df in
  rebuild_players players_df [] k = Some fresh_rows
  /\ rebuild_players players_df matches_df k
     = replay k fresh_rows (sort_values matches_df)
  /\ (forall e s n g : Player -> Z,
        rebuild_players
          ((fun p => mkPlayer (Name p) (e p) (s p) (n p) (g p) (Pin p)) <$> players_df)
          matches_df k
        = rebuild_players players_df matches_df k).
Proof.
  intros fresh_rows. unfold fresh_rows. rewrite <- reset_rows.
  split; [reflexivity |]. split; [apply rebuild_players_replay |].
  intros e s n g. rewrite !rebuild_players_replay. f_equal.
  rewrite !reset_rows.
  induction players_df as [| p df IH]; [reflexivity |].
  rewrite !fmap_cons. f_equal. exact IH.
Qed.

Lemma score_cases (pa pb : Z) : score pa pb = 0 \/ score pa pb = 1.
Proof. unfold score. destruct (pa >? pb); auto. Qed.

Lemma loc_assign_stats_ok (a : string) (e s n g : Z) (df : list Player) :
  Forall stats_ok df ->
  s + n = g -> 0 <= s -> 0 <= n -> 0 <= g ->
  Forall stats_ok (loc_assign a e s n g df).
Proof.
  intros Hall Hsum Hs Hn Hg. unfold loc_assign.
  apply Forall_fmap. eapply Forall_impl; [exact Hall |].
  intros p Hp. simpl. destruct (mask a p); [| exact Hp].
  unfold stats_ok. simpl. auto.
Qed.

Lemma first_row_stats_ok (a : string) (df : list Player) (p : Player) :
  Forall stats_ok df -> first_row a df = Some p -> stats_ok p.
Proof.
  intros Hall Hp. apply first_row_Some in Hp as [Hin _].
  rewrite Forall_forall in Hall. apply Hall, list_elem_of_In, Hin.
Qed.

Lemma rebuild_row_stats_ok (k : Z) (df : list Player) (row : Match)
    (df' : list Player) :
  Forall stats_ok df -> rebuild_row k df row = Some df' -> Forall stats_ok df'.
Proof.
  intros Hall. destruct (both_listed df row) eqn:Hb.
  - apply both_listed_rows in Hb as (p_a & p_b & Ha & Hb).
    destruct (rebuild_row_play k df row p_a p_b Ha Hb) as (q_b & Hq & ->).
    intros [= <-].
    pose proof (first_row_stats_ok _ _ _ Hall Ha) as (Ha1 & Ha2 & Ha3 & Ha4).
    pose proof (score_cases (PunkteA row) (PunkteB row)) as Hsc.
    assert (Hall1 : Forall stats_ok
      (loc_assign (A row)
         (calc_elo (ELO p_a) (ELO p_b) (score (PunkteA row) (PunkteB row)) k)
         (Siege p_a + score (PunkteA row) (PunkteB row))
         (Niederlagen p_a + (1 - score (PunkteA row) (PunkteB row)))
         (Spiele p_a + 1) df))
      by (apply loc_assign_stats_ok; [exact Hall | lia ..]).
    pose proof (first_row_stats_ok _ _ _ Hall1 Hq) as (Hq1 & Hq2 & Hq3 & Hq4).
    apply loc_assign_stats_ok; [exact Hall1 | lia ..].
  - rewrite rebuild_row_skip by exact Hb. intros [= <-]. exact Hall.
Qed.

(** C7.  Every row of the rebuilt roster has wins + losses = games, and
    none of the three counters is negative. *)
Theorem rebuild_counters_add_up (players_df : list Player)
    (matches_df : list Match) (k : Z) :
  exists df',
    rebuild_players players_df matches_df k = Some df'
    /\ Forall (fun p => Siege p + Niederlagen p = Spiele p
                        /\ 0 <= Siege p /\ 0 <= Niederlagen p /\ 0 <= Spiele p)
         df'.
Proof.
  destruct (rebuild_players_total players_df matches_df k) as [df' Hr].
  exists df'. split; [exact Hr |].
  rewrite rebuild_players_replay in Hr.
  refine (replay_invariant (Forall stats_ok) k (rebuild_row_stats_ok k)
            _ _ _ _ Hr).
  rewrite reset_rows. apply Forall_fmap, Forall_true.
  intros p. unfold stats_ok. simpl. lia.
Qed.

Lemma write_frame_insert (l : nat) (f : list Player -> option (list Player))
    (df : list Player) (h : gmap nat (list Player)) :
  write_frame l f (<[l := df]> h) = (df' ← f df; Some (<[l := df']> h)).
Proof.
  unfold write_frame. rewrite lookup_insert_eq. simpl.
  destruct (f df) as [df' |]; simpl; [| reflexivity].
  rewrite insert_insert_eq. reflexivity.
Qed.

Lemma replay_at_insert (k : Z) (l : nat) (rows : list Match) (df : list Player)
    (h : gmap nat (list Player)) :
  replay_at k l (<[l := df]> h) rows
  = (df' ← replay k df rows; Some (<[l := df']> h)).
Proof.
  revert df. induction rows as [| row rows IH]; intros df.
  - reflexivity.
  - cbn [replay_at replay]. rewrite write_frame_insert.
    destruct (rebuild_row k df row) as [df1 |]; simpl; [apply IH | reflexivity].
Qed.

(** The call computes [rebuild_players] on the contents of its argument
    and stores the result in a frame of its own. *)
Lemma rebuild_players_call_contents (h : gmap nat (list Player)) (arg : nat)
    (matches_df : list Match) (k : Z) :
  rebuild_players_call h arg matches_df k
  = (df ← h !! arg;
     df' ← rebuild_players df matches_df k;
     Some (fresh (dom h), <[fresh (dom h) := df']> h)).
Proof.
  unfold rebuild_players_call, rebuild_players.
  destruct (h !! arg) as [df |]; simpl; [| reflexivity].
  rewrite write_frame_insert. simpl. rewrite write_frame_insert. simpl.
  fold (reset df).
  destruct matches_df as [| m l]; [reflexivity |].
  rewrite replay_at_insert.
  destruct (replay k (reset df) (sort_values (m :: l))); reflexivity.
Qed.

(** C10.  The caller's frame is not written: the call returns the address
    of a frame that did not exist before, every frame of the store is as it
    was, and the new frame has the rows of the argument in the same order
    with the same [Name] and [Pin]. *)
Theorem rebuild_leaves_argument (h : gmap nat (list Player)) (arg : nat)
    (df : list Player) (matches_df : list Match) (k : Z) :
  h !! arg = Some df ->
  exists players_df df',
    rebuild_players_call h arg matches_df k = Some (players_df, <[players_df := df']> h)
    /\ h !! players_df = None
    /\ (forall l, is_Some (h !! l) -> <[players_df := df']> h !! l = h !! l)
    /\ <[players_df := df']> h !! arg = Some df
    /\ <[players_df := df']> h !! players_df = Some df'
    /\ Name <$> df' = Name <$> df
    /\ Pin <$> df' = Pin <$> df.
Proof.
  intros Harg.
  destruct (rebuild_players_total df matches_df k) as [df' Hr].
  exists (fresh (dom h)), df'.
  assert (Hfresh : h !! fresh (dom h) = None).
  { apply not_elem_of_dom. apply is_fresh. }
  assert (Hother : forall l, is_Some (h !! l) ->
            <[fresh (dom h) := df']> h !! l = h !! l).
  { intros l [x Hl]. apply lookup_insert_ne. intros <-.
    rewrite Hfresh in Hl. discriminate. }
  split.
  { rewrite rebuild_players_call_contents, Harg. simpl. rewrite Hr.
    reflexivity. }
  split; [exact Hfresh |].
  split; [exact Hother |].
  split; [rewrite Hother by eauto; exact Harg |].
  split; [apply lookup_insert_eq |].
  split.
  - exact (rebuild_players_Name _ _ _ _ Hr).
  - exact (rebuild_players_Pin _ _ _ _ Hr).
Qed.

(** C5, as the code has it.  The history is replayed in ascending order
    of [Datum], and the order of storage does not reach the result as long
    as rows that share a timestamp are one and the same row: two such lists
    with the same rows give the same roster. *)
Theorem rebuild_storage_order (players_df : list Player)
    (l1 l2 : list Match) (k : Z) :
  Permutation l1 l2 ->
  (forall m1 m2, In m1 l1 -> In m2 l1 -> Datum m1 = Datum m2 -> m1 = m2) ->
  (exists sorted,
      Permutation sorted l1 /\ Sorted Datum_le sorted
      /\ rebuild_players players_df l1 k = replay k (reset players_df) sorted)
  /\ rebuild_players players_df l1 k = rebuild_players players_df l2 k.
Proof.
  intros Hperm Hties. split.
  - exists (sort_values l1).
    split; [apply sort_values_perm |].
    split; [apply sort_values_sorted | apply rebuild_players_replay].
  - rewrite !rebuild_players_replay. f_equal.
    apply sorted_arrangement_unique.
    + apply sort_values_sorted.
    + apply sort_values_sorted.
    + rewrite !sort_values_perm. exact Hperm.
    + intros m1 m2 H1 H2.
      apply Hties; eapply Permutation_in; try apply sort_values_perm; assumption.
Qed.

End Rebuild.

(** ** The rating history against the rebuild *)

(** Comparisons of names, read as equations. *)
Ltac string_eqb :=
  repeat match goal with
    | H : String.eqb _ _ = true |- _ => apply String.eqb_eq in H
    | H : String.eqb _ _ = false |- _ => apply String.eqb_neq in H
    end.

Lemma rate_insert (key : string) (v : Z) (ratings : gmap string Z) (n : string) :
  rate (<[key := v]> ratings) n = if decide (key = n) then v else rate ratings n.
Proof.
  unfold rate. rewrite lookup_insert. destruct (decide (key = n)); reflexivity.
Qed.

Lemma rate_setdefault (key : string) (ratings : gmap string Z) (n : string) :
  rate (setdefault key 1200 ratings) n = rate ratings n.
Proof.
  unfold setdefault. destruct (ratings !! key) as [v |] eqn:Hk; [reflexivity |].
  rewrite rate_insert. destruct (decide (key = n)) as [<- |]; [| reflexivity].
  unfold rate. rewrite Hk. reflexivity.
Qed.

Lemma setdefault_lookup (key : string) (ratings : gmap string Z) :
  setdefault key 1200 ratings !! key = Some (rate ratings key).
Proof.
  unfold setdefault, rate. destruct (ratings !! key) as [v |] eqn:Hk.
  - rewrite Hk. reflexivity.
  - rewrite lookup_insert_eq. reflexivity.
Qed.

Lemma setdefault_keeps (key : string) (ratings : gmap string Z) (n : string) (v : Z) :
  ratings !! n = Some v -> setdefault key 1200 ratings !! n = Some v.
Proof.
  intros Hn. unfold setdefault. destruct (ratings !! key) eqn:Hk; [exact Hn |].
  rewrite lookup_insert_ne; [exact Hn |]. intros ->. congruence.
Qed.

(** The loop body of [elo_history], with its two reads resolved. *)
Lemma history_row_eq (player : string) (k : Z) (ratings : gmap string Z)
    (history : list (Timestamp * Z)) (row : Match) :
  let ra := rate ratings (A row) in
  let rb := rate ratings (B row) in
  let score_a := score (PunkteA row) (PunkteB row) in
  let new_ra := calc_elo ra rb score_a k in
  let new_rb := calc_elo rb ra (1 - score_a) k in
  let ratings1 :=
    <[B row := new_rb]>
      (<[A row := new_ra]> (setdefault (B row) 1200 (setdefault (A row) 1200 ratings))) in
  history_row player k (ratings, history) row
  = Some (ratings1,
          if String.eqb (A row) player then history ++ [(Datum row, new_ra)]
          else if String.eqb (B row) player then history ++ [(Datum row, new_rb)]
          else history).
Proof.
  intros ra rb score_a new_ra new_rb ratings1. unfold history_row.
  rewrite (setdefault_keeps (B row) _ (A row) ra)
    by apply setdefault_lookup.
  rewrite setdefault_lookup, rate_setdefault. simpl.
  fold rb score_a new_ra new_rb ratings1.
  destruct (String.eqb (A row) player); [reflexivity |].
  destruct (String.eqb (B row) player); reflexivity.
Qed.

Lemma history_row_total (player : string) (k : Z)
    (st : gmap string Z * list (Timestamp * Z)) (row : Match) :
  is_Some (history_row player k st row).
Proof. destruct st as [ratings history]. rewrite history_row_eq. eauto. Qed.

Lemma history_loop_total (player : string) (k : Z) (rows : list Match)
    (st : gmap string Z * list (Timestamp * Z)) :
  is_Some (history_loop player k st rows).
Proof.
  revert st. induction rows as [| row rows IH]; intros st; simpl.
  - eauto.
  - destruct (history_row_total player k st row) as [st' ->]. simpl. apply IH.
Qed.




Section History.
Context `{SortValues}.

Lemma elo_history_total (player : string) (matches_df : list Match) (k : Z) :
  is_Some (elo_history player matches_df k).
Proof.
  unfold elo_history.
  destruct (history_loop_total player k (sort_values matches_df) (∅, []))
    as [st ->].
  simpl. eauto.
Qed.


End History.



(** ** Concrete histories *)

Import Examples.



(** C5, as the spec has it, fails on the code: the two rows of one
    timestamp are replayed in their order of storage, and the second match
    is rated on what the first left.  Bert and Cleo end at 1184 and 1185 in
    one order of storage, at 1185 and 1184 in the other. *)
Lemma rebuild_depends_on_storage_order :
  Permutation [anna_bert; anna_cleo] [anna_cleo; anna_bert]
  /\ @rebuild_players stable_sort_values [anna; bert; cleo]
       [anna_bert; anna_cleo] 32
     = Some [mkPlayer "Anna" 1231 2 0 2 "$2b$12$anna";
             mkPlayer "Bert" 1184 0 1 1 "$2b$12$bert";
             mkPlayer "Cleo" 1185 0 1 1 "$2b$12$cleo"]
  /\ @rebuild_players stable_sort_values [anna; bert; cleo]
       [anna_cleo; anna_bert] 32
     = Some [mkPlayer "Anna" 1231 2 0 2 "$2b$12$anna";
             mkPlayer "Bert" 1185 0 1 1 "$2b$12$bert";
             mkPlayer "Cleo" 1184 0 1 1 "$2b$12$cleo"]
  /\ @rebuild_players stable_sort_values [anna; bert; cleo]
       [anna_bert; anna_cleo] 32
     <> @rebuild_players stable_sort_values [anna; bert; cleo]
          [anna_cleo; anna_bert] 32.
Proof.
  assert (H1 : @rebuild_players stable_sort_values [anna; bert; cleo]
                 [anna_bert; anna_cleo] 32
               = Some [mkPlayer "Anna" 1231 2 0 2 "$2b$12$anna";
                       mkPlayer "Bert" 1184 0 1 1 "$2b$12$bert";
                       mkPlayer "Cleo" 1185 0 1 1 "$2b$12$cleo"])
    by (eval_elo; reflexivity).
  assert (H2 : @rebuild_players stable_sort_values [anna; bert; cleo]
                 [anna_cleo; anna_bert] 32
               = Some [mkPlayer "Anna" 1231 2 0 2 "$2b$12$anna";
                       mkPlayer "Bert" 1185 0 1 1 "$2b$12$bert";
                       mkPlayer "Cleo" 1184 0 1 1 "$2b$12$cleo"])
    by (eval_elo; reflexivity).
  split; [apply perm_swap |]. split; [exact H1 |]. split; [exact H2 |].
  rewrite H1, H2. discriminate.
Qed.

(** C5, as the code has it, on two rows with different timestamps. *)
Lemma rebuild_storage_order_witness :
  (exists sorted,
      Permutation sorted [anna_cleo_later; anna_bert]
      /\ Sorted Datum_le sorted
      /\ @rebuild_players stable_sort_values [anna; bert; cleo]
           [anna_cleo_later; anna_bert] 32
         = replay 32 (reset [anna; bert; cleo]) sorted)
  /\ @rebuild_players stable_sort_values [anna; bert; cleo]
       [anna_cleo_later; anna_bert] 32
     = @rebuild_players stable_sort_values [anna; bert; cleo]
         [anna_bert; anna_cleo_later] 32.
Proof.
  apply (@rebuild_storage_order stable_sort_values).
  - apply perm_swap.
  - intros m1 m2 [<- | [<- | []]] [<- | [<- | []]]; simpl;
      try reflexivity; discriminate.
Defined.

(** C10 on a store that holds one roster. *)
Lemma rebuild_leaves_argument_witness :
  exists players_df df',
    @rebuild_players_call stable_sort_values {[ 0%nat := [anna; bert] ]} 0
      [anna_bert] 32
    = Some (players_df, <[players_df := df']> {[ 0%nat := [anna; bert] ]})
    /\ ({[ 0%nat := [anna; bert] ]} : gmap nat (list Player)) !! players_df = None
    /\ (forall l, is_Some (({[ 0%nat := [anna; bert] ]} : gmap nat (list Player)) !! l) ->
          <[players_df := df']> ({[ 0%nat := [anna; bert] ]} : gmap nat (list Player)) !! l
          = ({[ 0%nat := [anna; bert] ]} : gmap nat (list Player)) !! l)
    /\ <[players_df := df']> ({[ 0%nat := [anna; bert] ]} : gmap nat (list Player)) !! 0%nat
       = Some [anna; bert]
    /\ <[players_df := df']> ({[ 0%nat := [anna; bert] ]} : gmap nat (list Player)) !! players_df
       = Some df'
    /\ Name <$> df' = Name <$> [anna; bert]
    /\ Pin <$> df' = Pin <$> [anna; bert].
Proof.
  apply (@rebuild_leaves_argument stable_sort_values).
  apply lookup_singleton_eq.
Defined.
(** ** The loop over the open matches *)

Lemma delete_alter (f : PendingMatch -> PendingMatch) (idx : nat)
    (l : list PendingMatch) :
  delete idx (alter f idx l) = delete idx l.
Proof.
  revert idx. induction l as [| x l IH]; intros [| i]; try reflexivity.
  cbn. f_equal. apply IH.
Qed.

(** The buttons of a row that is not in the frame, or that does not await
    the player, are not drawn. *)
Lemma drawn_Some (current_player : string) (pending : list PendingMatch)
    (idx : nat) (row : PendingMatch) :
  drawn current_player pending idx = Some row ->
  pending !! idx = Some row
  /\ awaits current_player row = true
  /\ readable row = true.
Proof.
  unfold drawn. destruct (pending !! idx) as [r |] eqn:Hidx; cbn; [| discriminate].
  destruct (awaits current_player r) eqn:Haw; cbn; [| discriminate].
  destruct (forallb readable _) eqn:Hall; [| discriminate].
  intros [= <-]. repeat split; try assumption.
  rewrite forallb_forall in Hall. apply Hall.
  apply filter_In. split; [| exact Haw].
  apply list_elem_of_In, (list_elem_of_lookup_2 _ idx).
  rewrite lookup_take_lt by lia. exact Hidx.
Qed.


Lemma drawn_not_awaited (current_player : string) (pending : list PendingMatch)
    (idx : nat) (row : PendingMatch) :
  pending !! idx = Some row -> awaits current_player row = false ->
  drawn current_player pending idx = None.
Proof. unfold drawn. intros -> Haw. cbn. rewrite Haw. reflexivity. Qed.

(** With readable dates on all rows the buttons of every awaited row are
    drawn. *)
Lemma drawn_readable (current_player : string) (pending : list PendingMatch)
    (idx : nat) (row : PendingMatch) :
  pending !! idx = Some row -> awaits current_player row = true ->
  Forall (fun r => awaits current_player r = true -> readable r = true)
    (take (S idx) pending) ->
  drawn current_player pending idx = Some row.
Proof.
  intros Hidx Haw Hall. unfold drawn. rewrite Hidx. cbn. rewrite Haw. cbn.
  assert (Hr : forallb readable
                 (List.filter (awaits current_player) (take (S idx) pending))
               = true).
  { apply forallb_forall. intros r Hin. apply filter_In in Hin as [Hin Hr].
    rewrite Forall_forall in Hall. apply Hall; [| exact Hr].
    apply list_elem_of_In. exact Hin. }
  rewrite Hr. reflexivity.
Qed.

Section Loop.
Context `{SortValues}.

(** The loop on the rows of a frame whose labels start at [n]. *)
Lemma offene_matches_from (current_player : string) (click : Click)
    (t : Tables) (shown : option Message) (l : list PendingMatch) :
  forall n : nat,
  offene_matches current_player click
    (List.filter (fun ir => awaits current_player ir.2)
       (imap (fun i x => ((n + i)%nat, x)) l))
    t shown
  = match
      (match click with
       | MatchSpeichern _ _ _ => None
       | Bestaetigen idx | Ablehnen idx =>
           if decide (n <= idx)%nat
           then drawn current_player l (idx - n) else None
       end)
    with
    | Some row =>
        match click with
        | MatchSpeichern _ _ _ => (t, shown, finished)
        | Bestaetigen idx =>
            match bestaetigen current_player idx row t with
            | Some t' => (t', shown, finished)
            | None => (t, shown, uncaught LookupError)
            end
        | Ablehnen idx =>
            match ablehnen idx t with
            | Some (t', msg) => (t', Some msg, finished)
            | None => (t, shown, uncaught LookupError)
            end
        end
    | None => (t, shown, loop_ending current_player l)
    end.
Proof.
  induction l as [| x l IH]; intros n.
  - cbn. destruct click as [pa b pb | idx | idx]; [reflexivity | |];
      destruct (decide (n <= idx)%nat); reflexivity.
  - rewrite imap_cons. cbn [List.filter snd].
    rewrite (imap_ext _ (fun i y => ((S n + i)%nat, y)))
      by (intros i y _; cbn; f_equal; lia).
    specialize (IH (S n)).
    assert (Hshift : forall idx, (S n <= idx)%nat ->
              drawn current_player (x :: l) (idx - n)
              = if awaits current_player x && negb (readable x) then None
                else drawn current_player l (idx - S n)).
    { intros idx Hle. unfold drawn.
      replace (idx - n)%nat with (S (idx - S n))%nat by lia.
      cbn [lookup list_lookup take List.filter].
      change (list_lookup (idx - S n)%nat l) with (l !! (idx - S n)%nat).
      destruct (l !! (idx - S n)%nat) as [row |]; cbn;
        [| destruct (awaits current_player x && negb (readable x)); reflexivity].
      destruct (awaits current_player x) eqn:Hx; cbn; [| reflexivity].
      destruct (readable x); cbn; [reflexivity |].
      rewrite andb_false_r. reflexivity. }
    assert (Hhead : drawn current_player (x :: l) 0
                    = if awaits current_player x && readable x
                      then Some x else None).
    { unfold drawn. cbn. destruct (awaits current_player x); cbn; [| reflexivity].
      rewrite andb_true_r. reflexivity. }
    assert (Hend : loop_ending current_player (x :: l)
                   = if awaits current_player x && negb (readable x)
                     then uncaught ValueError
                     else loop_ending current_player l).
    { unfold loop_ending. cbn [List.filter].
      destruct (awaits current_player x); cbn; [| reflexivity].
      destruct (readable x); reflexivity. }
    destruct (awaits current_player x) eqn:Hx; cbn [andb negb] in *.
    + cbn [offene_matches].
      unfold readable in Hshift, Hhead, Hend.
      destruct (Datum (cols x)) as [d |] eqn:Hd; cbn [negb] in *.
      * destruct click as [pa b pb | idx | idx]; cbn [conf_clicked rej_clicked].
        -- rewrite IH, Hend. reflexivity.
        -- replace (n + 0)%nat with n by lia.
           destruct (Nat.eqb idx n) eqn:Heq.
           ++ apply Nat.eqb_eq in Heq. subst idx.
              destruct (decide (n <= n)%nat); [| lia].
              rewrite Nat.sub_diag, Hhead. reflexivity.
           ++ apply Nat.eqb_neq in Heq. rewrite IH.
              destruct (decide (S n <= idx)%nat), (decide (n <= idx)%nat);
                try lia; rewrite ?Hshift, ?Hend by assumption; reflexivity.
        -- replace (n + 0)%nat with n by lia.
           destruct (Nat.eqb idx n) eqn:Heq.
           ++ apply Nat.eqb_eq in Heq. subst idx.
              destruct (decide (n <= n)%nat); [| lia].
              rewrite Nat.sub_diag, Hhead. reflexivity.
           ++ apply Nat.eqb_neq in Heq. rewrite IH.
              destruct (decide (S n <= idx)%nat), (decide (n <= idx)%nat);
                try lia; rewrite ?Hshift, ?Hend by assumption; reflexivity.
      * rewrite Hend.
        destruct click as [pa b pb | idx | idx]; [reflexivity | |];
          (destruct (decide (n <= idx)%nat) as [Hle |]; [| reflexivity];
           destruct (decide (idx = n)) as [-> | Hne];
           [rewrite Nat.sub_diag, Hhead; reflexivity
           | rewrite Hshift by lia; reflexivity]).
    + rewrite IH, Hend.
      destruct click as [pa b pb | idx | idx]; [reflexivity | |];
        (destruct (decide (S n <= idx)%nat), (decide (n <= idx)%nat);
         try lia; rewrite ?Hshift by assumption; try reflexivity;
         replace idx with n by lia; rewrite Nat.sub_diag, Hhead; reflexivity).
Qed.

(** The loop of a run. *)
Lemma offene_matches_to_confirm (current_player : string) (click : Click)
    (t : Tables) (shown : option Message) (l : list PendingMatch) :
  offene_matches current_player click (to_confirm current_player l) t shown
  = match
      (match click with
       | MatchSpeichern _ _ _ => None
       | Bestaetigen idx | Ablehnen idx => drawn current_player l idx
       end)
    with
    | Some row =>
        match click with
        | MatchSpeichern _ _ _ => (t, shown, finished)
        | Bestaetigen idx =>
            match bestaetigen current_player idx row t with
            | Some t' => (t', shown, finished)
            | None => (t, shown, uncaught LookupError)
            end
        | Ablehnen idx =>
            match ablehnen idx t with
            | Some (t', msg) => (t', Some msg, finished)
            | None => (t, shown, uncaught LookupError)
            end
        end
    | None => (t, shown, loop_ending current_player l)
    end.
Proof.
  unfold to_confirm.
  change (imap pair l) with (imap (fun i x => ((0 + i)%nat, x)) l).
  rewrite offene_matches_from.
  destruct click as [pa b pb | idx | idx]; [reflexivity | |];
    (destruct (decide (0 <= idx)%nat); [| lia]; rewrite Nat.sub_0_r; reflexivity).
Qed.

(** What the handler does when the flag it sets completes the pair. *)
Lemma bestaetigen_promotes (current_player : string) (idx : nat)
    (row : PendingMatch) (t : Tables) :
  pending t !! idx = Some row ->
  other_flag current_player row = true ->
  bestaetigen current_player idx row t
  = (players' ← rebuild_players (players t) (matches t ++ [cols row]) 32;
     Some (mkTables players' (matches t ++ [cols row]) (delete idx (pending t)))).
Proof.
  intros Hidx Hother. unfold bestaetigen, other_flag in *.
  destruct (String.eqb (A (cols row)) current_player).
  - rewrite list_lookup_alter_eq, Hidx. cbn. rewrite Hother. cbn.
    destruct (rebuild_players _ _ _); cbn; [| reflexivity].
    rewrite delete_alter. reflexivity.
  - rewrite list_lookup_alter_eq, Hidx. cbn. rewrite Hother. cbn.
    destruct (rebuild_players _ _ _); cbn; [| reflexivity].
    rewrite delete_alter. reflexivity.
Qed.

(** What the handler does when the other flag is not set. *)
Lemma bestaetigen_waits (current_player : string) (idx : nat)
    (row : PendingMatch) (t : Tables) :
  pending t !! idx = Some row ->
  other_flag current_player row = false ->
  bestaetigen current_player idx row t
  = Some (mkTables (players t) (matches t)
            (alter (set_own_flag current_player row) idx (pending t))).
Proof.
  intros Hidx Hother. unfold bestaetigen, other_flag, set_own_flag in *.
  destruct (String.eqb (A (cols row)) current_player);
    rewrite list_lookup_alter_eq, Hidx; cbn; rewrite Hother;
    rewrite ?andb_false_r; reflexivity.
Qed.

(** On a row of the frame the handler of "Bestätigen" raises nothing. *)
Lemma bestaetigen_total (current_player : string) (idx : nat)
    (row : PendingMatch) (t : Tables) :
  pending t !! idx = Some row ->
  is_Some (bestaetigen current_player idx row t).
Proof.
  intros Hidx. destruct (other_flag current_player row) eqn:Hother.
  - rewrite (bestaetigen_promotes _ _ _ _ Hidx Hother).
    destruct (rebuild_players_total (players t) (matches t ++ [cols row]) 32)
      as [players' ->]. cbn. eauto.
  - rewrite (bestaetigen_waits _ _ _ _ Hidx Hother). eauto.
Qed.

Lemma ablehnen_Some (idx : nat) (row : PendingMatch) (t : Tables) :
  pending t !! idx = Some row ->
  ablehnen idx t
  = Some (mkTables (players t) (matches t) (delete idx (pending t)),
          st_success "Match abgelehnt und entfernt.").
Proof. intros Hidx. unfold ablehnen. rewrite Hidx. reflexivity. Qed.

(** A run for a click on "Bestätigen": the handler when the button is
    drawn, the loop alone when it is not. *)
Lemma run_Bestaetigen (ts_now : Z) (current_player : string) (idx : nat)
    (t : Tables) :
  run ts_now current_player (Bestaetigen idx) t
  = match drawn current_player (pending t) idx with
    | Some row =>
        match bestaetigen current_player idx row t with
        | Some t' => (t', None, finished)
        | None => (t, None, uncaught LookupError)
        end
    | None => (t, None, loop_ending current_player (pending t))
    end.
Proof. unfold run. rewrite offene_matches_to_confirm. reflexivity. Qed.

Lemma run_Ablehnen (ts_now : Z) (current_player : string) (idx : nat)
    (t : Tables) :
  run ts_now current_player (Ablehnen idx) t
  = match drawn current_player (pending t) idx with
    | Some row =>
        (mkTables (players t) (matches t) (delete idx (pending t)),
         Some (st_success "Match abgelehnt und entfernt."), finished)
    | None => (t, None, loop_ending current_player (pending t))
    end.
Proof.
  unfold run. rewrite offene_matches_to_confirm.
  destruct (drawn current_player (pending t) idx) as [row |] eqn:Hd;
    [| reflexivity].
  apply drawn_Some in Hd as (Hidx & _ & _).
  rewrite (ablehnen_Some _ _ _ Hidx). reflexivity.
Qed.

(** The row of a new report does not await its reporter. *)
Lemma awaits_report (ts_now : Z) (current_player b : string) (pa pb : Z) :
  current_player <> b ->
  awaits current_player
    (mkPending (mkMatch (Some ts_now) current_player b pa pb) true false)
  = false.
Proof.
  intros Hne. unfold awaits. cbn.
  rewrite andb_false_r. cbn.
  destruct (String.eqb b current_player) eqn:Hb; [| reflexivity].
  apply String.eqb_eq in Hb. congruence.
Qed.

Lemma loop_ending_app (current_player : string) (l : list PendingMatch)
    (row : PendingMatch) :
  awaits current_player row = false ->
  loop_ending current_player (l ++ [row]) = loop_ending current_player l.
Proof.
  intros Haw. unfold loop_ending. rewrite List.filter_app. cbn.
  rewrite Haw, app_nil_r. reflexivity.
Qed.

Lemma run_MatchSpeichern (ts_now : Z) (current_player : string) (pa : Z)
    (b : string) (pb : Z) (t : Tables) :
  run ts_now current_player (MatchSpeichern pa b pb) t
  = if (length (players t) <? 2)%nat
    then (t, None, loop_ending current_player (pending t))
    else ((match_speichern ts_now current_player b pa pb t).1,
          Some (match_speichern ts_now current_player b pa pb t).2,
          loop_ending current_player (pending t)).
Proof.
  unfold run.
  destruct (length (players t) <? 2)%nat.
  - rewrite offene_matches_to_confirm. reflexivity.
  - unfold match_speichern.
    destruct (String.eqb current_player b) eqn:Hb;
      rewrite offene_matches_to_confirm; cbn [fst snd pending]; [reflexivity |].
    apply String.eqb_neq in Hb.
    rewrite loop_ending_app by (apply awaits_report; exact Hb).
    reflexivity.
Qed.

(** The loop raises only at a row that awaits the player and has no
    readable date. *)
Lemma loop_ending_cases (current_player : string) (l : list PendingMatch) :
  (loop_ending current_player l = finished
   /\ Forall (fun row => awaits current_player row = true ->
                          is_Some (Datum (cols row))) l)
  \/ (loop_ending current_player l = uncaught ValueError
      /\ exists row, In row l /\ awaits current_player row = true
                      /\ Datum (cols row) = None).
Proof.
  unfold loop_ending.
  destruct (forallb readable (List.filter (awaits current_player) l)) eqn:Hall.
  - left. split; [reflexivity |].
    rewrite forallb_forall in Hall. apply Forall_forall.
    intros row Hin Haw.
    specialize (Hall row). unfold readable in Hall.
    destruct (Datum (cols row)); [eauto |].
    assert (false = true); [| discriminate].
    apply Hall, filter_In. split; [apply list_elem_of_In; exact Hin | exact Haw].
  - right. split; [reflexivity |].
    assert (Hex : existsb (fun row => negb (readable row))
                    (List.filter (awaits current_player) l) = true).
    { clear -Hall. induction (List.filter (awaits current_player) l) as [| r rs IH];
        [discriminate |].
      cbn in *. destruct (readable r); cbn in *; [auto | reflexivity]. }
    apply existsb_exists in Hex as (row & Hin & Hr).
    apply filter_In in Hin as [Hin Haw].
    exists row. repeat split; try assumption.
    unfold readable in Hr. destruct (Datum (cols row)); [discriminate | reflexivity].
Qed.

End Loop.
(** ** The three handlers on the page *)

(** C8.  A report against oneself shows an error and leaves the three
    tables as they are.  A report against somebody else appends one pending
    row with [confA] set, [confB] not set and the time of the clock, and
    leaves roster and history as they are.  Whatever the page does with the
    click, and however the run ends, roster and history stay. *)
Theorem match_speichern_reports (ts_now : Z) (current_player b : string)
    (pa pb : Z) (t : Tables) :
  (current_player = b ->
     match_speichern ts_now current_player b pa pb t
     = (t, st_error "Spieler dürfen nicht identisch sein."))
  /\ (current_player <> b ->
        exists msg,
          match_speichern ts_now current_player b pa pb t
          = (mkTables (players t) (matches t)
               (pending t
                  ++ [mkPending (mkMatch (Some ts_now) current_player b pa pb)
                        true false]),
             st_success msg))
  /\ (forall `{SortValues},
        exists t' shown ending,
          run ts_now current_player (MatchSpeichern pa b pb) t
          = (t', shown, ending)
          /\ players t' = players t /\ matches t' = matches t).
Proof.
  split; [| split].
  - intros ->. unfold match_speichern. rewrite String.eqb_refl. reflexivity.
  - intros Hne. unfold match_speichern.
    apply String.eqb_neq in Hne. rewrite Hne. eauto.
  - intros S. rewrite run_MatchSpeichern.
    destruct (length (players t) <? 2)%nat; [eauto 10 |].
    unfold match_speichern.
    destruct (String.eqb current_player b); cbn; eauto 10.
Qed.

Section Workflow.
Context `{SortValues}.

(** C4.  The handler, on any row of the pending frame: when the other side
    has confirmed, it appends the row's match to the history, removes the
    row from the pending frame and stores the roster rebuilt from the new
    history; when the other side has not, it sets the flag and changes
    neither history nor roster nor the number of pending rows.  The page
    runs the handler, and nothing else, for a click on a button it has
    drawn; for a button it has not drawn it stores nothing.  A click for a
    side whose flag is set already changes neither history nor roster. *)
Theorem bestaetigen_confirms (ts_now : Z) (current_player : string) (idx : nat)
    (row : PendingMatch) (t : Tables) :
  pending t !! idx = Some row ->
  let side_a := String.eqb (A (cols row)) current_player in
  ((if side_a then confB row else confA row) = true ->
   exists players',
     rebuild_players (players t) (matches t ++ [cols row]) 32 = Some players'
     /\ bestaetigen current_player idx row t
        = Some (mkTables players' (matches t ++ [cols row])
                  (delete idx (pending t)))
     /\ (drawn current_player (pending t) idx = Some row ->
         run ts_now current_player (Bestaetigen idx) t
         = (mkTables players' (matches t ++ [cols row])
              (delete idx (pending t)), None, finished)))
  /\ ((if side_a then confB row else confA row) = false ->
      bestaetigen current_player idx row t
      = Some (mkTables (players t) (matches t)
                (alter (if side_a then set_confA else set_confB) idx (pending t)))
      /\ length (alter (if side_a then set_confA else set_confB) idx (pending t))
         = length (pending t)
      /\ (drawn current_player (pending t) idx = Some row ->
          run ts_now current_player (Bestaetigen idx) t
          = (mkTables (players t) (matches t)
               (alter (if side_a then set_confA else set_confB) idx (pending t)),
             None, finished)))
  /\ (drawn current_player (pending t) idx = None ->
      run ts_now current_player (Bestaetigen idx) t
      = (t, None, loop_ending current_player (pending t)))
  /\ ((if side_a then confA row else confB row) = true ->
      exists t' ending,
        run ts_now current_player (Bestaetigen idx) t = (t', None, ending)
        /\ players t' = players t /\ matches t' = matches t).
Proof.
  intros Hidx side_a.
  split; [| split; [| split]].
  - intros Hother.
    destruct (rebuild_players_total (players t) (matches t ++ [cols row]) 32)
      as [players' Hr].
    exists players'.
    assert (Hb : bestaetigen current_player idx row t
                 = Some (mkTables players' (matches t ++ [cols row])
                           (delete idx (pending t))))
      by (rewrite (bestaetigen_promotes _ _ _ _ Hidx Hother), Hr; reflexivity).
    split; [exact Hr | split; [exact Hb |]].
    intros Hd. rewrite run_Bestaetigen, Hd, Hb. reflexivity.
  - intros Hother.
    pose proof (bestaetigen_waits _ _ _ _ Hidx Hother) as Hb.
    split; [exact Hb | split; [apply length_alter |]].
    intros Hd. rewrite run_Bestaetigen, Hd, Hb. reflexivity.
  - intros Hd. rewrite run_Bestaetigen, Hd. reflexivity.
  - intros Hset. rewrite run_Bestaetigen.
    destruct (drawn current_player (pending t) idx) as [r |] eqn:Hd; [| eauto].
    apply drawn_Some in Hd as (Hidx' & Haw & _).
    rewrite Hidx in Hidx'. injection Hidx' as <-.
    assert (Hother : other_flag current_player row = false).
    { unfold awaits, other_flag in *. subst side_a.
      destruct (String.eqb (A (cols row)) current_player);
      destruct (String.eqb (B (cols row)) current_player);
      destruct (confA row); destruct (confB row);
      cbn in *; congruence. }
    rewrite (bestaetigen_waits _ _ _ _ Hidx Hother). cbn. eauto.
Qed.


End Workflow.

(** C4 on the report of Anna: Bert confirms, the match enters the history,
    the pending frame is empty and the roster is rebuilt. *)
Lemma bestaetigen_confirms_witness :
  exists players',
    @rebuild_players stable_sort_values (players reported)
      (matches reported ++ [anna_bert]) 32 = Some players'
    /\ @bestaetigen stable_sort_values "Bert" 0 (mkPending anna_bert true false)
         reported
       = Some (mkTables players' (matches reported ++ [anna_bert])
                 (delete 0%nat (pending reported)))
    /\ @run stable_sort_values 500 "Bert" (Bestaetigen 0) reported
       = (mkTables players' (matches reported ++ [anna_bert])
            (delete 0%nat (pending reported)), None, finished).
Proof.
  destruct (@bestaetigen_confirms stable_sort_values 500 "Bert" 0%nat
              (mkPending anna_bert true false) reported eq_refl)
    as [Hpromote _].
  destruct (Hpromote eq_refl) as (players' & Hr & Hb & Hrun).
  exists players'.
  split; [exact Hr | split; [exact Hb | apply Hrun; reflexivity]].
Defined.

(** The roster after that confirmation. *)
Lemma bestaetigen_example :
  @run stable_sort_values 500 "Bert" (Bestaetigen 0) reported
  = (mkTables [mkPlayer "Anna" 1216 1 0 1 "$2b$12$anna";
               mkPlayer "Bert" 1184 0 1 1 "$2b$12$bert"]
       [anna_bert] [], None, finished).
Proof. eval_elo. reflexivity. Qed.

(** Bert declines instead: the pending frame is empty, roster and history
    are untouched. *)
Lemma ablehnen_example :
  @run stable_sort_values 500 "Bert" (Ablehnen 0) reported
  = (mkTables [anna; bert] [] [],
     Some (st_success "Match abgelehnt und entfernt."), finished).
Proof. reflexivity. Qed.

(** Behind a row without a readable date the page draws no button for
    Anna's report: the run of Bert ends in the [ValueError] of [strftime],
    for either click, and stores nothing.  Anna, whom the undated row does
    not await, can still report. *)
Lemma undated_example :
  drawn "Bert" (pending undated) 1 = None
  /\ @run stable_sort_values 500 "Bert" (Bestaetigen 1) undated
     = (undated, None, uncaught ValueError)
  /\ @run stable_sort_values 500 "Bert" (Ablehnen 1) undated
     = (undated, None, uncaught ValueError)
  /\ @run stable_sort_values 500 "Bert" (Ablehnen 0) undated
     = (undated, None, uncaught ValueError)
  /\ exists t' msg,
       @run stable_sort_values 500 "Anna" (MatchSpeichern 11 "Bert" 7) undated
       = (t', Some (st_success msg), finished)
       /\ length (pending t') = 3%nat.
Proof.
  repeat split; try reflexivity.
  eexists _, _. split; reflexivity.
Qed.

(** * Further properties of the rating engine *)

(** ** What the counters count *)

Lemma count_if_cons (f : Match -> bool) (m : Match) (rows : list Match) :
  count_if f (m :: rows) = (if f m then 1 else 0) + count_if f rows.
Proof.
  unfold count_if. cbn [List.filter].
  destruct (f m); cbn [length]; lia.
Qed.

Lemma count_if_nil (f : Match -> bool) : count_if f [] = 0.
Proof. reflexivity. Qed.

Lemma count_if_perm (f : Match -> bool) (l1 l2 : list Match) :
  Permutation l1 l2 -> count_if f l1 = count_if f l2.
Proof.
  intros Hp. unfold count_if. f_equal.
  induction Hp as [| x l l' Hp IH | x y l | l l' l'' H1 IH1 H2 IH2]; cbn [List.filter].
  - reflexivity.
  - destruct (f x); cbn [length]; congruence.
  - destruct (f x), (f y); reflexivity.
  - congruence.
Qed.

Lemma filter_perm (f : Match -> bool) (l1 l2 : list Match) :
  Permutation l1 l2 -> Permutation (List.filter f l1) (List.filter f l2).
Proof.
  intros Hp.
  induction Hp as [| x l l' Hp IH | x y l | l l' l'' H1 IH1 H2 IH2]; cbn [List.filter].
  - reflexivity.
  - destruct (f x); [constructor |]; exact IH.
  - destruct (f x), (f y); try reflexivity. apply perm_swap.
  - etransitivity; eassumption.
Qed.

(** The counters of the frame against three tallies by name. *)
Definition counted (G S N : string -> Z) (df : list Player) : Prop :=
  Forall (fun p => Spiele p = G (Name p) /\ Siege p = S (Name p)
                   /\ Niederlagen p = N (Name p)) df.

Lemma first_row_counted (G S N : string -> Z) (a : string) (df : list Player)
    (p : Player) :
  counted G S N df -> first_row a df = Some p ->
  Spiele p = G a /\ Siege p = S a /\ Niederlagen p = N a.
Proof.
  intros Hc Hp. apply first_row_Some in Hp as [Hin <-].
  unfold counted in Hc. rewrite Forall_forall in Hc.
  apply Hc, list_elem_of_In, Hin.
Qed.

(** One listed row adds one game to each side and one win to the side with
    more points, or to side B when the points are level. *)
Lemma rebuild_row_counted (k : Z) (G S N : string -> Z) (df : list Player)
    (row : Match) (df' : list Player) :
  counted G S N df ->
  both_listed df row = true ->
  rebuild_row k df row = Some df' ->
  counted (fun n => G n + games_of n [row])
          (fun n => S n + wins_of n [row])
          (fun n => N n + losses_of n [row]) df'.
Proof.
  intros Hc Hlisted.
  destruct (both_listed_rows df row Hlisted) as (p_a & p_b & Ha & Hb).
  destruct (rebuild_row_play k df row p_a p_b Ha Hb) as (q_b & Hq & ->).
  intros [= <-].
  destruct (first_row_counted G S N _ _ _ Hc Ha) as (Hga & Hsa & Hna).
  destruct (first_row_counted G S N _ _ _ Hc Hb) as (Hgb & Hsb & Hnb).
  rewrite first_row_loc_assign, Hb in Hq. cbn in Hq.
  injection Hq as <-.
  unfold counted, loc_assign. rewrite !Forall_fmap.
  unfold counted in Hc. eapply Forall_impl; [exact Hc |].
  intros p (Hg & Hs & Hn). cbn [compose].
  unfold games_of, wins_of, losses_of. rewrite !count_if_cons, !count_if_nil.
  unfold score.
  assert (Hab : mask (A row) p_b = String.eqb (B row) (A row)).
  { unfold mask. apply first_row_Some in Hb as [_ ->]. reflexivity. }
  rewrite Hab.
  destruct (PunkteA row >? PunkteB row);
  destruct (mask (A row) p) eqn:Hma; unfold mask in *; cbn [Name];
    destruct (String.eqb (Name p) (B row)) eqn:Hmb;
    destruct (String.eqb (B row) (A row)) eqn:Hba;
    cbn [Name Spiele Siege Niederlagen andb negb];
    rewrite (String.eqb_sym (A row) (Name p)), (String.eqb_sym (B row) (Name p));
    rewrite ?Hma, ?Hmb; cbn [andb negb];
    string_eqb; try congruence;
    try (first [rewrite Hma in * | rewrite Hmb in * | idtac];
         repeat split; lia).
Qed.

Lemma replay_counted (k : Z) (rows : list Match) :
  forall (G S N : string -> Z) (df df' : list Player),
  counted G S N df ->
  replay k df rows = Some df' ->
  counted (fun n => G n + games_of n (List.filter (both_listed df) rows))
          (fun n => S n + wins_of n (List.filter (both_listed df) rows))
          (fun n => N n + losses_of n (List.filter (both_listed df) rows)) df'.
Proof.
  induction rows as [| row rows IH]; intros G S N df df' Hc.
  - intros [= <-]. unfold counted in *. eapply Forall_impl; [exact Hc |].
    intros p (Hg & Hs & Hn). cbn. unfold games_of, wins_of, losses_of.
    rewrite !count_if_nil. lia.
  - cbn [replay List.filter].
    destruct (rebuild_row k df row) as [df1 |] eqn:Hrow; cbn; [| discriminate].
    intros Hrep.
    assert (Hnames : forall m, both_listed df1 m = both_listed df m).
    { intros m. apply both_listed_Name.
      exact (rebuild_row_Name k df row df1 Hrow). }
    destruct (both_listed df row) eqn:Hlisted.
    + pose proof (rebuild_row_counted k G S N df row df1 Hc Hlisted Hrow) as Hc1.
      specialize (IH _ _ _ df1 df' Hc1 Hrep).
      rewrite (filter_ext _ _ Hnames) in IH.
      unfold counted in *. eapply Forall_impl; [exact IH |].
      intros p (Hg & Hs & Hn). cbn beta in *.
      unfold games_of, wins_of, losses_of in *.
      rewrite !count_if_cons in *. rewrite !count_if_nil in *. lia.
    + rewrite rebuild_row_skip in Hrow by exact Hlisted.
      injection Hrow as <-.
      exact (IH _ _ _ df df' Hc Hrep).
Qed.

Section Counters.
Context `{SortValues}.

(** X1.  After a rebuild every row carries the tallies of its name over the
    listed matches of the history: games, wins and losses count the rows
    that name it as A and the rows that name it as B; a row with level
    points is a win for B.  The tallies do not depend on timestamps, on the
    order of storage or on [k]. *)
Theorem rebuild_counts_matches (players_df : list Player)
    (matches_df : list Match) (k : Z) :
  let listed := List.filter (both_listed players_df) matches_df in
  exists df',
    rebuild_players players_df matches_df k = Some df'
    /\ Forall (fun p => Spiele p = games_of (Name p) listed
                        /\ Siege p = wins_of (Name p) listed
                        /\ Niederlagen p = losses_of (Name p) listed) df'.
Proof.
  intros listed.
  destruct (rebuild_players_total players_df matches_df k) as [df' Hr].
  exists df'. split; [exact Hr |].
  rewrite rebuild_players_replay in Hr.
  assert (Hc0 : counted (fun _ => 0) (fun _ => 0) (fun _ => 0) (reset players_df)).
  { unfold counted. rewrite reset_rows. apply Forall_fmap, Forall_true.
    intros p. cbn. auto. }
  pose proof (replay_counted k _ _ _ _ _ df' Hc0 Hr) as Hc.
  assert (Hperm : Permutation
            (List.filter (both_listed (reset players_df)) (sort_values matches_df))
            listed).
  { unfold listed.
    rewrite (filter_ext (both_listed (reset players_df)) (both_listed players_df))
      by (intros m; apply both_listed_Name, reset_Name).
    apply filter_perm, sort_values_perm. }
  unfold counted in Hc. eapply Forall_impl; [exact Hc |].
  intros p (Hg & Hs & Hn). cbn beta in *.
  unfold games_of, wins_of, losses_of in *.
  rewrite !(count_if_perm _ _ _ Hperm) in *. lia.
Qed.

End Counters.

(** ** What a rebuild does not remember, and whom it does not touch *)

Lemma reset_ext (df1 df2 : list Player) :
  Name <$> df1 = Name <$> df2 -> Pin <$> df1 = Pin <$> df2 ->
  reset df1 = reset df2.
Proof.
  rewrite !reset_rows. revert df2.
  induction df1 as [| p df1 IH]; intros [| q df2] Hn Hp; try discriminate.
  - reflexivity.
  - rewrite !fmap_cons in *. injection Hn as Hn1 Hn2. injection Hp as Hp1 Hp2.
    rewrite Hn1, Hp1. f_equal. apply IH; assumption.
Qed.

(** Rows that a match does not name stay as they are. *)
Lemma rebuild_row_other (k : Z) (n : string) (df : list Player) (row : Match)
    (df' : list Player) (P : Player -> Prop) :
  both_listed df row && takes_part n row = false ->
  rebuild_row k df row = Some df' ->
  Forall (fun p => Name p = n -> P p) df ->
  Forall (fun p => Name p = n -> P p) df'.
Proof.
  intros Hout Hrow Hall.
  destruct (both_listed df row) eqn:Hlisted.
  - cbn in Hout. unfold takes_part in Hout. apply orb_false_elim in Hout as [HA HB].
    string_eqb.
    destruct (both_listed_rows df row Hlisted) as (p_a & p_b & Ha & Hb).
    destruct (rebuild_row_play k df row p_a p_b Ha Hb) as (q_b & _ & Heq).
    rewrite Heq in Hrow. injection Hrow as <-.
    unfold loc_assign. rewrite !Forall_fmap.
    eapply Forall_impl; [exact Hall |].
    intros p Hp. cbn [compose].
    destruct (mask (A row) p) eqn:Hma; unfold mask in *; cbn [Name];
      destruct (String.eqb (Name p) (B row)) eqn:Hmb; cbn [Name];
      string_eqb; intros Hn; try congruence.
    apply Hp, Hn.
  - rewrite rebuild_row_skip in Hrow by exact Hlisted.
    injection Hrow as <-. exact Hall.
Qed.

Lemma replay_other (k : Z) (n : string) (P : Player -> Prop) (rows : list Match) :
  forall df df',
  forallb (fun m => negb (both_listed df m && takes_part n m)) rows = true ->
  replay k df rows = Some df' ->
  Forall (fun p => Name p = n -> P p) df ->
  Forall (fun p => Name p = n -> P p) df'.
Proof.
  induction rows as [| row rows IH]; intros df df' Hout.
  - intros [= <-]. auto.
  - cbn [forallb] in Hout. apply andb_prop in Hout as [Hrow0 Hrest].
    apply negb_true_iff in Hrow0.
    cbn [replay].
    destruct (rebuild_row k df row) as [df1 |] eqn:Hrow; cbn; [| discriminate].
    intros Hrep Hall.
    apply (IH df1 df').
    + rewrite forallb_forall in *. intros m Hm.
      rewrite (both_listed_Name df df1 m)
        by exact (rebuild_row_Name k df row df1 Hrow).
      apply Hrest, Hm.
    + exact Hrep.
    + exact (rebuild_row_other k n df row df1 P Hrow0 Hrow Hall).
Qed.

Section Memory.
Context `{SortValues}.

Lemma rebuild_players_ext (df1 df2 : list Player) (matches_df : list Match)
    (k : Z) :
  Name <$> df1 = Name <$> df2 -> Pin <$> df1 = Pin <$> df2 ->
  rebuild_players df1 matches_df k = rebuild_players df2 matches_df k.
Proof.
  intros Hn Hp. rewrite !rebuild_players_replay.
  rewrite (reset_ext df1 df2 Hn Hp). reflexivity.
Qed.

(** X2.  A rebuilt roster carries nothing over into the next rebuild:
    rebuilding it once more from the same history returns it unchanged, and
    rebuilding it from any other history, with any [k], gives what the
    original roster would have given. *)
Theorem rebuild_forgets (players_df : list Player)
    (matches_df other_df : list Match) (k k' : Z) :
  exists df',
    rebuild_players players_df matches_df k = Some df'
    /\ rebuild_players df' matches_df k = Some df'
    /\ rebuild_players df' other_df k' = rebuild_players players_df other_df k'.
Proof.
  destruct (rebuild_players_total players_df matches_df k) as [df' Hr].
  exists df'. split; [exact Hr |].
  pose proof (rebuild_players_Name _ _ _ _ Hr) as Hn.
  pose proof (rebuild_players_Pin _ _ _ _ Hr) as Hp.
  split.
  - rewrite (rebuild_players_ext df' players_df matches_df k Hn Hp). exact Hr.
  - exact (rebuild_players_ext df' players_df other_df k' Hn Hp).
Qed.

(** X3.  A player whom no listed match of the history names comes out of
    the rebuild with the starting values: rating 1200 and all three
    counters 0. *)
Theorem rebuild_keeps_unplayed (players_df : list Player)
    (matches_df : list Match) (k : Z) (n : string) :
  forallb (fun m => negb (both_listed players_df m && takes_part n m))
    matches_df = true ->
  exists df',
    rebuild_players players_df matches_df k = Some df'
    /\ Forall (fun p => Name p = n ->
                 ELO p = 1200 /\ Siege p = 0 /\ Niederlagen p = 0 /\ Spiele p = 0)
         df'.
Proof.
  intros Hout.
  destruct (rebuild_players_total players_df matches_df k) as [df' Hr].
  exists df'. split; [exact Hr |].
  rewrite rebuild_players_replay in Hr.
  refine (replay_other k n _ (sort_values matches_df) (reset players_df) df'
            _ Hr _).
  - rewrite forallb_forall in *. intros m Hm.
    rewrite (both_listed_Name players_df (reset players_df) m)
      by apply reset_Name.
    apply Hout. exact (Permutation_in m (sort_values_perm matches_df) Hm).
  - rewrite reset_rows. apply Forall_fmap, Forall_true.
    intros p _. cbn. auto.
Qed.

End Memory.

(** ** The shape of the rating history *)



Section HistoryShape.
Context `{SortValues}.





End HistoryShape.
(** * Further properties of the confirmation workflow *)

Section WorkflowSteps.
Context `{SortValues}.

(** The five things a run of the match view can do to the tables, however
    it ends. *)
Lemma run_cases (ts_now : Z) (current_player : string) (click : Click)
    (t t' : Tables) (shown : option Message) (ending : Ending) :
  run ts_now current_player click t = (t', shown, ending) ->
  t' = t
  \/ (exists pa b pb,
        click = MatchSpeichern pa b pb /\ current_player <> b
        /\ t' = mkTables (players t) (matches t)
                  (pending t
                     ++ [mkPending (mkMatch (Some ts_now) current_player b pa pb)
                           true false]))
  \/ (exists idx row players',
        click = Bestaetigen idx /\ pending t !! idx = Some row
        /\ awaits current_player row = true
        /\ other_flag current_player row = true
        /\ rebuild_players (players t) (matches t ++ [cols row]) 32 = Some players'
        /\ t' = mkTables players' (matches t ++ [cols row]) (delete idx (pending t)))
  \/ (exists idx row,
        click = Bestaetigen idx /\ pending t !! idx = Some row
        /\ awaits current_player row = true
        /\ other_flag current_player row = false
        /\ t' = mkTables (players t) (matches t)
                  (alter (set_own_flag current_player row) idx (pending t)))
  \/ (exists idx row,
        click = Ablehnen idx /\ pending t !! idx = Some row
        /\ awaits current_player row = true
        /\ t' = mkTables (players t) (matches t) (delete idx (pending t))).
Proof.
  destruct click as [pa b pb | idx | idx].
  - rewrite run_MatchSpeichern.
    destruct (length (players t) <? 2)%nat; [intros [= <- _ _]; auto |].
    unfold match_speichern.
    destruct (String.eqb current_player b) eqn:Hb; cbn [fst snd];
      intros [= <- _ _]; [auto |].
    right. left. exists pa, b, pb. string_eqb. auto.
  - rewrite run_Bestaetigen.
    destruct (drawn current_player (pending t) idx) as [row |] eqn:Hd;
      [| intros [= <- _ _]; auto].
    apply drawn_Some in Hd as (Hidx & Haw & _).
    destruct (other_flag current_player row) eqn:Hother.
    + rewrite (bestaetigen_promotes _ _ _ _ Hidx Hother).
      destruct (rebuild_players _ _ _) as [players' |] eqn:Hr; cbn;
        [| intros [= <- _ _]; auto].
      intros [= <- _ _]. right. right. left. exists idx, row, players'. auto 10.
    + rewrite (bestaetigen_waits _ _ _ _ Hidx Hother).
      intros [= <- _ _]. right. right. right. left. exists idx, row. auto 10.
  - rewrite run_Ablehnen.
    destruct (drawn current_player (pending t) idx) as [row |] eqn:Hd;
      [| intros [= <- _ _]; auto].
    apply drawn_Some in Hd as (Hidx & Haw & _).
    intros [= <- _ _]. right. right. right. right. exists idx, row. auto.
Qed.

(** The ways a run of the match view can end. *)
Lemma run_ending (ts_now : Z) (current_player : string) (click : Click)
    (t t' : Tables) (shown : option Message) (ending : Ending) :
  run ts_now current_player click t = (t', shown, ending) ->
  ending = finished \/ ending = loop_ending current_player (pending t).
Proof.
  destruct click as [pa b pb | idx | idx].
  - rewrite run_MatchSpeichern.
    destruct (length (players t) <? 2)%nat; intros [= _ _ <-]; auto.
  - rewrite run_Bestaetigen.
    destruct (drawn current_player (pending t) idx) as [row |] eqn:Hd;
      [| intros [= _ _ <-]; auto].
    apply drawn_Some in Hd as (Hidx & _ & _).
    destruct (bestaetigen_total current_player idx row t Hidx) as [t1 ->].
    intros [= _ _ <-]. auto.
  - rewrite run_Ablehnen.
    destruct (drawn current_player (pending t) idx); intros [= _ _ <-]; auto.
Qed.

Lemma run_keeps_Name (ts_now : Z) (current_player : string) (click : Click)
    (t t' : Tables) (shown : option Message) (ending : Ending) :
  run ts_now current_player click t = (t', shown, ending) ->
  Name <$> players t' = Name <$> players t.
Proof.
  intros Hrun.
  destruct (run_cases _ _ _ _ _ _ _ Hrun)
    as [-> | [(pa & b & pb & _ & _ & ->) |
       [(idx & row & players' & _ & _ & _ & _ & Hr & ->) |
       [(idx & row & _ & _ & _ & _ & ->) |
        (idx & row & _ & _ & _ & ->)]]]]; cbn [players]; try reflexivity.
  exact (rebuild_players_Name _ _ _ _ Hr).
Qed.

End WorkflowSteps.

Lemma In_delete_other (l : list PendingMatch) (idx : nat) (row r : PendingMatch) :
  l !! idx = Some row -> r <> row -> In r l -> In r (delete idx l).
Proof.
  revert idx. induction l as [| y l IH]; intros [| i] Hidx Hne Hin;
    try discriminate.
  - cbn in *. injection Hidx as ->. destruct Hin as [-> | Hin]; [congruence | exact Hin].
  - cbn in *. destruct Hin as [-> | Hin]; [left; reflexivity |].
    right. exact (IH i Hidx Hne Hin).
Qed.

Lemma In_alter_other (f : PendingMatch -> PendingMatch) (l : list PendingMatch)
    (idx : nat) (row r : PendingMatch) :
  l !! idx = Some row -> r <> row -> In r l -> In r (alter f idx l).
Proof.
  revert idx. induction l as [| y l IH]; intros [| i] Hidx Hne Hin;
    try discriminate.
  - cbn in *. injection Hidx as ->. destruct Hin as [-> | Hin]; [congruence |].
    right. exact Hin.
  - cbn in *. destruct Hin as [-> | Hin]; [left; reflexivity |].
    right. exact (IH i Hidx Hne Hin).
Qed.

Section WorkflowLife.
Context `{SortValues}.

(** X10.  A run on behalf of one player keeps every pending row that does
    not await that player, however the run ends: somebody who is no party
    to a row, or who has confirmed it already (its reporter, for one), can
    neither promote it nor remove it nor change its flags. *)
Theorem run_keeps_foreign_rows (ts_now : Z) (current_player : string)
    (click : Click) (t t' : Tables) (shown : option Message) (ending : Ending)
    (r : PendingMatch) :
  run ts_now current_player click t = (t', shown, ending) ->
  awaits current_player r = false ->
  In r (pending t) ->
  In r (pending t').
Proof.
  intros Hrun Hr Hin.
  destruct (run_cases _ _ _ _ _ _ _ Hrun)
    as [-> | [(pa & b & pb & _ & _ & ->) |
       [(idx & row & players' & _ & Hidx & Haw & _ & _ & ->) |
       [(idx & row & _ & Hidx & Haw & _ & ->) |
        (idx & row & _ & Hidx & Haw & ->)]]]]; cbn [pending].
  - exact Hin.
  - apply in_or_app. left. exact Hin.
  - apply (In_delete_other _ idx row); [exact Hidx | congruence | exact Hin].
  - apply (In_alter_other _ _ idx row); [exact Hidx | congruence | exact Hin].
  - apply (In_delete_other _ idx row); [exact Hidx | congruence | exact Hin].
Qed.

(** X11.  No pending row has both flags set, provided none had before the
    run: a row whose second flag is set leaves the pending frame in the
    same run. *)
Theorem run_keeps_pending_open (ts_now : Z) (current_player : string)
    (click : Click) (t t' : Tables) (shown : option Message) (ending : Ending) :
  run ts_now current_player click t = (t', shown, ending) ->
  Forall (fun row => confA row && confB row = false) (pending t) ->
  Forall (fun row => confA row && confB row = false) (pending t').
Proof.
  intros Hrun Hall.
  destruct (run_cases _ _ _ _ _ _ _ Hrun)
    as [-> | [(pa & b & pb & _ & _ & ->) |
       [(idx & row & players' & _ & Hidx & Haw & _ & _ & ->) |
       [(idx & row & _ & Hidx & Haw & Hother & ->) |
        (idx & row & _ & Hidx & Haw & ->)]]]]; cbn [pending].
  - exact Hall.
  - apply Forall_app. split; [exact Hall |]. repeat constructor.
  - apply Forall_delete. exact Hall.
  - apply Forall_alter; [exact Hall |].
    intros x Hx _. rewrite Hidx in Hx. injection Hx as <-.
    unfold set_own_flag, other_flag in *.
    destruct (String.eqb (A (cols row)) current_player); cbn;
      rewrite Hother; [reflexivity | apply andb_false_l].
  - apply Forall_delete. exact Hall.
Qed.

(** X12.  A run of the match view ends regularly or with the [ValueError]
    that [strftime] raises on a pending row which awaits the player and
    has no readable date; it ends regularly when every such row has one.
    No handler raises in a run.  Whatever the click and however the run
    ends: the roster keeps its rows' names and PINs; the history keeps its
    rows and gains at most one at its end; and the ratings and counters
    change only in a run in which the history gains a row. *)
Theorem run_frame (ts_now : Z) (current_player : string) (click : Click)
    (t : Tables) :
  exists t' shown ending new,
    run ts_now current_player click t = (t', shown, ending)
    /\ (ending = finished
        \/ (ending = uncaught ValueError
            /\ exists row,
                 In row (pending t) /\ awaits current_player row = true
                 /\ Datum (cols row) = None))
    /\ (Forall (fun row => awaits current_player row = true ->
                           is_Some (Datum (cols row))) (pending t) ->
        ending = finished)
    /\ Name <$> players t' = Name <$> players t
    /\ Pin <$> players t' = Pin <$> players t
    /\ matches t' = matches t ++ new
    /\ (length new <= 1)%nat
    /\ (new = [] -> players t' = players t).
Proof.
  destruct (run ts_now current_player click t) as [[t' shown] ending] eqn:Hrun.
  exists t', shown, ending.
  assert (Hend : (ending = finished
                  \/ (ending = uncaught ValueError
                      /\ exists row,
                           In row (pending t) /\ awaits current_player row = true
                           /\ Datum (cols row) = None))
                 /\ (Forall (fun row => awaits current_player row = true ->
                                        is_Some (Datum (cols row))) (pending t) ->
                     ending = finished)).
  { destruct (run_ending _ _ _ _ _ _ _ Hrun) as [-> | ->]; [auto |].
    destruct (loop_ending_cases current_player (pending t))
      as [[-> _] | [-> (row & Hin & Haw & Hd)]]; [auto |].
    split; [right; eauto 10 |].
    intros Hall. rewrite Forall_forall in Hall.
    destruct (Hall row (proj2 (list_elem_of_In _ _) Hin) Haw) as [d Hsome].
    congruence. }
  destruct Hend as [Hend1 Hend2].
  destruct (run_cases _ _ _ _ _ _ _ Hrun)
    as [-> | [(pa & b & pb & _ & _ & ->) |
       [(idx & row & players' & _ & Hidx & Haw & _ & Hr & ->) |
       [(idx & row & _ & Hidx & Haw & Hother & ->) |
        (idx & row & _ & Hidx & Haw & ->)]]]];
    cbn [players matches pending].
  - exists []. rewrite app_nil_r. auto 10.
  - exists []. rewrite app_nil_r. auto 10.
  - exists [cols row].
    split; [reflexivity |]. split; [exact Hend1 |]. split; [exact Hend2 |].
    split; [exact (rebuild_players_Name _ _ _ _ Hr) |].
    split; [exact (rebuild_players_Pin _ _ _ _ Hr) |].
    split; [reflexivity |]. split; [cbn; lia | discriminate].
  - exists []. rewrite app_nil_r. auto 10.
  - exists []. rewrite app_nil_r. auto 10.
Qed.

(** X13.  A roster that is the rebuild of the stored history stays so
    through every run, however it ends: the stored ratings never drift
    from what the stored history gives. *)
Theorem run_keeps_roster_rebuilt (ts_now : Z) (current_player : string)
    (click : Click) (t t' : Tables) (shown : option Message) (ending : Ending) :
  run ts_now current_player click t = (t', shown, ending) ->
  rebuild_players (players t) (matches t) 32 = Some (players t) ->
  rebuild_players (players t') (matches t') 32 = Some (players t').
Proof.
  intros Hrun Hfix.
  destruct (run_cases _ _ _ _ _ _ _ Hrun)
    as [-> | [(pa & b & pb & _ & _ & ->) |
       [(idx & row & players' & _ & Hidx & Haw & _ & Hr & ->) |
       [(idx & row & _ & Hidx & Haw & Hother & ->) |
        (idx & row & _ & Hidx & Haw & ->)]]]];
    cbn [players matches pending]; try exact Hfix.
  rewrite (rebuild_players_ext players' (players t)).
  - exact Hr.
  - exact (rebuild_players_Name _ _ _ _ Hr).
  - exact (rebuild_players_Pin _ _ _ _ Hr).
Qed.

End WorkflowLife.
(** * Properties of login, registration and the session *)

Lemma stand_in_prefix (pin salt h : string) :
  stand_in_hashpw pin salt = Some h -> String.prefix "$2b$" h = true.
Proof. unfold stand_in_hashpw. intros [= <-]. destruct pin; reflexivity. Qed.

Lemma stand_in_accepts (pin salt h : string) :
  stand_in_hashpw pin salt = Some h -> stand_in_checkpw pin h = Some true.
Proof.
  unfold stand_in_hashpw, stand_in_checkpw. intros [= <-].
  replace (String.prefix "$2b$" ("$2b$" ++ pin)%string) with true
    by (destruct pin; reflexivity).
  rewrite String.eqb_refl. reflexivity.
Qed.

#[export] Instance stand_in_bcrypt : Bcrypt := {|
  hashpw := stand_in_hashpw;
  checkpw := stand_in_checkpw;
  hashpw_prefix := stand_in_prefix;
  checkpw_hashpw := stand_in_accepts
|}.

Section Sessions.
Context `{SortValues} `{Bcrypt}.

(** The login handler with its read resolved. *)
Lemma einloggen_eq (login_name login_pin salt : string) (s : Session)
    (players : list Player) (p : Player) :
  first_row login_name players = Some p ->
  einloggen login_name login_pin salt s players
  = match check_pin login_pin (Pin p) with
    | None => inl ValueError
    | Some true =>
        if is_hash (Pin p) then
          inr (mkSession true (Some login_name) (view_mode s), players, None)
        else
          match hash_pin login_pin salt with
          | None => inl ValueError
          | Some h =>
              inr (mkSession true (Some login_name) (view_mode s),
                   loc_set_Pin login_name h players, None)
          end
    | Some false => inr (s, players, Some (note_error "Falsche PIN"))
    end.
Proof.
  intros Hp. unfold einloggen. rewrite iat0_loc, Hp.
  cbn [fmap option_fmap option_map or_raise mbind raises_bind].
  destruct (check_pin login_pin (Pin p)) as [[|] |];
    cbn [or_raise mbind raises_bind]; try reflexivity.
  unfold is_hash.
  destruct (String.prefix "$2b$" (Pin p)), (String.prefix "$2a$" (Pin p));
    cbn [negb andb orb mbind raises_bind]; try reflexivity.
  destruct (hash_pin login_pin salt);
    cbn [or_raise mbind raises_bind]; reflexivity.
Qed.

(** What a click on "Einloggen" can do: nothing, or log the player in,
    with or without replacing a stored plain PIN by its hash. *)
Lemma einloggen_cases (login_name login_pin salt : string) (s s' : Session)
    (players players' : list Player) (note : option Note) (p : Player) :
  first_row login_name players = Some p ->
  einloggen login_name login_pin salt s players = inr (s', players', note) ->
  (s' = s /\ players' = players)
  \/ (s' = mkSession true (Some login_name) (view_mode s)
      /\ check_pin login_pin (Pin p) = Some true
      /\ (players' = players
          \/ exists h, is_hash (Pin p) = false
                       /\ hash_pin login_pin salt = Some h
                       /\ players' = loc_set_Pin login_name h players)).
Proof.
  intros Hp. rewrite (einloggen_eq _ _ _ _ _ _ Hp).
  destruct (check_pin login_pin (Pin p)) as [[|] |]; try discriminate.
  - destruct (is_hash (Pin p)) eqn:Hh.
    + intros [= <- <- _]. right. auto.
    + destruct (hash_pin login_pin salt) as [h |] eqn:Hhash; [| discriminate].
      intros [= <- <- _]. right. split; [reflexivity |]. split; [reflexivity |].
      right. exists h. auto.
  - intros [= <- <- _]. left. auto.
Qed.

(** What a click on "Registrieren" can do to the roster. *)
Lemma registrieren_cases (reg_name reg_pin1 reg_pin2 salt : string)
    (players players' : list Player) (note : Note) :
  registrieren reg_name reg_pin1 reg_pin2 salt players = inr (players', note) ->
  players' = players
  \/ exists h, hash_pin reg_pin1 salt = Some h
               /\ players' = players ++ [mkPlayer reg_name 1200 0 0 0 h].
Proof.
  unfold registrieren.
  destruct (String.eqb reg_name "" || String.eqb reg_pin1 "");
    [intros [= <- _]; auto |].
  destruct (negb (String.eqb reg_pin1 reg_pin2)); [intros [= <- _]; auto |].
  destruct (isin reg_name (Name <$> players)); [intros [= <- _]; auto |].
  destruct (hash_pin reg_pin1 salt) as [h |]; cbn [or_raise mbind raises_bind];
    [| discriminate].
  intros [= <- _]. right. eauto.
Qed.

(** X17.  Nobody gets logged in without a PIN that [check_pin] accepts: a
    run that turns a logged-out session into a logged-in one is a click on
    "Einloggen" for a name of the roster, the typed PIN passes [check_pin]
    against the PIN stored in the first row of that name, and when that
    stored PIN is plain text the typed PIN is equal to it.  The session is
    then logged in as that name. *)
Theorem login_needs_pin (ts_now : Z) (ev : Event) (s s' : Session)
    (t t' : Tables) :
  script ts_now ev s t = (s', t') ->
  logged_in s = false ->
  logged_in s' = true ->
  exists name pin salt p,
    ev = in_sidebar (Einloggen name pin salt)
    /\ first_row name (players t) = Some p
    /\ check_pin pin (Pin p) = Some true
    /\ (is_hash (Pin p) = false -> pin = Pin p)
    /\ current_player s' = Some name.
Proof.
  intros Hs Hout Hin'.
  destruct ev as [c | c]; cbn [script] in Hs; rewrite Hout in Hs; cbn [negb] in Hs.
  - destruct c as [n pin salt | n p1 p2 salt | | |];
      try (injection Hs as <- <-; congruence).
    + destruct (isin n (Name <$> players t)) eqn:Hin;
        [| injection Hs as <- <-; congruence].
      apply isin_first_row in Hin as [p Hp].
      destruct (einloggen n pin salt s (players t)) as [e | [[s1 players1] note]]
        eqn:He; [injection Hs as <- <-; congruence |].
      injection Hs as <- <-.
      destruct (einloggen_cases _ _ _ _ _ _ _ _ _ Hp He)
        as [[-> _] | (-> & Hcheck & _)]; [congruence |].
      exists n, pin, salt, p. repeat split; auto.
      intros Hplain. unfold check_pin in Hcheck. rewrite Hplain in Hcheck.
      injection Hcheck as Hcheck. apply String.eqb_eq. exact Hcheck.
    + destruct (registrieren n p1 p2 salt (players t)) as [e | [players1 note]];
        injection Hs as <- <-; congruence.
  - injection Hs as <- <-. congruence.
Qed.

(** X18.  The history changes in one way only: a player who is logged in
    and looks at the match view clicks "Bestätigen" on a pending row that
    awaits this very player while the other side has confirmed; the history
    then gains the match of that row at its end.  No other click, and no
    click of anybody else, adds, removes or changes a match. *)
Theorem history_changes_by_confirmation (ts_now : Z) (ev : Event)
    (s s' : Session) (t t' : Tables) :
  script ts_now ev s t = (s', t') ->
  matches t' <> matches t ->
  exists player idx row,
    logged_in s = true /\ current_player s = Some player /\ view_mode s = spiel
    /\ ev = in_page (Bestaetigen idx)
    /\ pending t !! idx = Some row
    /\ awaits player row = true
    /\ other_flag player row = true
    /\ matches t' = matches t ++ [cols row].
Proof.
  intros Hs Hchg.
  destruct ev as [c | c]; cbn [script] in Hs.
  - exfalso. apply Hchg.
    destruct (negb (logged_in s)).
    + destruct c as [n pin salt | n p1 p2 salt | | |];
        try (injection Hs as <- <-; reflexivity).
      * destruct (isin n (Name <$> players t));
          [| injection Hs as <- <-; reflexivity].
        destruct (einloggen n pin salt s (players t)) as [e | [[s1 players1] note]];
          injection Hs as <- <-; reflexivity.
      * destruct (registrieren n p1 p2 salt (players t)) as [e | [players1 note]];
          injection Hs as <- <-; reflexivity.
    + destruct c; injection Hs as <- <-; reflexivity.
  - destruct (logged_in s) eqn:Hin; cbn [negb] in Hs;
      [| injection Hs as <- <-; congruence].
    destruct (view_mode s) eqn:Hview, (current_player s) as [player |] eqn:Hcp;
      try (injection Hs as <- <-; congruence).
    destruct (run ts_now player c t) as [[t1 shown] ending] eqn:Hrun.
    injection Hs as <- <-.
    destruct (run_cases _ _ _ _ _ _ _ Hrun)
      as [-> | [(pa & b & pb & _ & _ & ->) |
         [(idx & row & players' & -> & Hidx & Haw & Hother & _ & ->) |
         [(idx & row & _ & _ & _ & _ & ->) |
          (idx & row & _ & _ & _ & ->)]]]]; cbn [matches] in *;
      try congruence.
    exists player, idx, row. auto 10.
Qed.

(** X20.  The two session keys are written together: the session of a
    first visit has nobody logged in and no current player, and from a
    session in which [logged_in] holds exactly when [current_player] is set
    every run leads to such a session again. *)
Theorem script_keeps_session_coupled (ts_now : Z) (ev : Event) (s s' : Session)
    (t t' : Tables) :
  script ts_now ev s t = (s', t') ->
  coupled s ->
  coupled new_session /\ coupled s'.
Proof.
  intros Hs Hc.
  assert (Hnew : coupled new_session).
  { unfold coupled. cbn. split; [discriminate | intros [x Hx]; discriminate]. }
  assert (Hin : forall n v, coupled (mkSession true (Some n) v)).
  { intros n v. unfold coupled. cbn. split; eauto. }
  assert (Hout : forall v, coupled (mkSession false None v)).
  { intros v. unfold coupled. cbn.
    split; [discriminate | intros [x Hx]; discriminate]. }
  assert (Hview : forall v, coupled (mkSession (logged_in s) (current_player s) v)).
  { intros v. exact Hc. }
  split; [exact Hnew |].
  destruct ev as [c | c]; cbn [script] in Hs.
  - destruct (negb (logged_in s)).
    + destruct c as [n pin salt | n p1 p2 salt | | |];
        try (injection Hs as <- <-; exact Hc).
      * destruct (isin n (Name <$> players t)) eqn:Hisin;
          [| injection Hs as <- <-; exact Hc].
        apply isin_first_row in Hisin as [p Hp].
        destruct (einloggen n pin salt s (players t)) as [e | [[s1 players1] note]]
          eqn:He; [injection Hs as <- <-; exact Hc |].
        injection Hs as <- <-.
        destruct (einloggen_cases _ _ _ _ _ _ _ _ _ Hp He)
          as [[-> _] | (-> & _)]; [exact Hc | apply Hin].
      * destruct (registrieren n p1 p2 salt (players t)) as [e | [players1 note]];
          injection Hs as <- <-; exact Hc.
    + destruct c; injection Hs as <- <-; auto.
  - destruct (negb (logged_in s)); [injection Hs as <- <-; exact Hc |].
    destruct (view_mode s), (current_player s) as [player |];
      try (injection Hs as <- <-; exact Hc).
    destruct (run ts_now player c t) as [[t1 shown] ending].
    injection Hs as <- <-. exact Hc.
Qed.

End Sessions.

(** * The last five matches *)

Lemma ts_geb_ge (t1 t2 : Timestamp) : ts_geb t1 t2 = true <-> ts_ge t1 t2.
Proof.
  destruct t1 as [x |], t2 as [y |]; simpl; try tauto.
  - apply Z.leb_le.
  - split; [discriminate | contradiction].
Qed.

Lemma ts_ge_trans (t1 t2 t3 : Timestamp) :
  ts_ge t1 t2 -> ts_ge t2 t3 -> ts_ge t1 t3.
Proof. destruct t1, t2, t3; simpl; try tauto; lia. Qed.

Lemma ts_ge_total (t1 t2 : Timestamp) : ts_ge t1 t2 \/ ts_ge t2 t1.
Proof. destruct t1, t2; simpl; try tauto; lia. Qed.

#[local] Instance Datum_ge_trans : Transitive Datum_ge.
Proof. intros x y z. unfold Datum_ge. apply ts_ge_trans. Qed.

Lemma insert_row_descending_perm (m : Match) (l : list Match) :
  Permutation (insert_row_descending m l) (m :: l).
Proof.
  induction l as [| x l IH]; simpl.
  - reflexivity.
  - destruct (ts_geb (Datum m) (Datum x)).
    + reflexivity.
    + rewrite IH. apply perm_swap.
Qed.

Lemma insert_row_descending_sorted (m : Match) (l : list Match) :
  Sorted Datum_ge l -> Sorted Datum_ge (insert_row_descending m l).
Proof.
  induction l as [| x l IH]; intros Hs; simpl.
  - repeat constructor.
  - destruct (ts_geb (Datum m) (Datum x)) eqn:Hmx.
    + constructor; [exact Hs |].
      constructor. apply ts_geb_ge. exact Hmx.
    + apply Sorted_inv in Hs as [Hs Hhd].
      assert (Hxm : Datum_ge x m).
      { destruct (ts_ge_total (Datum m) (Datum x)) as [Hge | Hge];
          [| exact Hge].
        apply ts_geb_ge in Hge. congruence. }
      constructor; [apply IH; exact Hs |].
      destruct l as [| z l]; simpl.
      * constructor. exact Hxm.
      * destruct (ts_geb (Datum m) (Datum z)).
        -- constructor. exact Hxm.
        -- constructor. apply HdRel_inv in Hhd. exact Hhd.
Qed.

Lemma descending_sort_perm (l : list Match) : Permutation (descending_sort l) l.
Proof.
  induction l as [| m l IH]; simpl.
  - reflexivity.
  - rewrite insert_row_descending_perm. constructor. exact IH.
Qed.

Lemma descending_sort_sorted (l : list Match) :
  Sorted Datum_ge (descending_sort l).
Proof.
  induction l as [| m l IH]; simpl.
  - constructor.
  - apply insert_row_descending_sorted. exact IH.
Qed.

#[export] Instance descending_sort_values : SortValuesDescending := {|
  sort_values_descending := descending_sort;
  sort_values_descending_perm := descending_sort_perm;
  sort_values_descending_sorted := descending_sort_sorted
|}.

Lemma StronglySorted_split (l1 l2 : list Match) :
  StronglySorted Datum_ge (l1 ++ l2) ->
  StronglySorted Datum_ge l1
  /\ (forall m o, In m l1 -> In o l2 -> Datum_ge m o).
Proof.
  induction l1 as [| x l1 IH]; cbn; intros Hs.
  - split; [constructor | intros m o []].
  - apply StronglySorted_inv in Hs as [Hs Hall].
    destruct (IH Hs) as [Hs1 Hcross].
    apply Forall_app in Hall as [Hall1 Hall2].
    split; [constructor; assumption |].
    intros m o [<- | Hm] Ho.
    + rewrite Forall_forall in Hall2. apply Hall2, list_elem_of_In, Ho.
    + exact (Hcross m o Hm Ho).
Qed.

(** X19.  The section shows the note exactly when the history is empty.
    Otherwise it shows five matches, or all of them when there are fewer:
    they are matches of the history, latest first, and no match left out is
    later than a match shown (matches without a readable date count as the
    earliest). *)
Theorem letzte_matches_latest `{SortValuesDescending} (matches : list Match) :
  match letzte_matches matches with
  | noch_keine_spiele => matches = []
  | tabelle recent =>
      matches <> []
      /\ length recent = Nat.min 5 (length matches)
      /\ Sorted Datum_ge recent
      /\ exists older,
           Permutation (recent ++ older) matches
           /\ (forall m o, In m recent -> In o older -> Datum_ge m o)
  end.
Proof.
  unfold letzte_matches. destruct matches as [| m0 l]; [reflexivity |].
  set (matches := m0 :: l).
  pose proof (sort_values_descending_perm matches) as Hperm.
  pose proof (sort_values_descending_sorted matches) as Hsorted.
  apply Sorted_StronglySorted in Hsorted; [| exact Datum_ge_trans].
  rewrite <- (take_drop 5 (sort_values_descending matches)) in Hsorted.
  apply StronglySorted_split in Hsorted as [Hs1 Hcross].
  split; [discriminate |]. split.
  - rewrite length_take. f_equal. apply Permutation_length, Hperm.
  - split; [apply StronglySorted_Sorted, Hs1 |].
    exists (drop 5 (sort_values_descending matches)).
    split; [rewrite take_drop; exact Hperm | exact Hcross].
Qed.
(** * The further properties on concrete tables *)

(** X3: Cleo is in the roster and in no match. *)
Lemma rebuild_keeps_unplayed_witness :
  exists df',
    @rebuild_players stable_sort_values [anna; bert; cleo] [anna_bert] 32 = Some df'
    /\ Forall (fun p => Name p = "Cleo" ->
                 ELO p = 1200 /\ Siege p = 0 /\ Niederlagen p = 0 /\ Spiele p = 0)
         df'.
Proof.
  apply (@rebuild_keeps_unplayed stable_sort_values
           [anna; bert; cleo] [anna_bert] 32 "Cleo").
  reflexivity.
Defined.

(** X10: Anna cannot withdraw her own report. *)
Lemma run_keeps_foreign_rows_witness :
  In (mkPending anna_bert true false) (pending reported).
Proof.
  apply (@run_keeps_foreign_rows stable_sort_values 500 "Anna" (Ablehnen 0)
           reported reported None finished (mkPending anna_bert true false)).
  - reflexivity.
  - reflexivity.
  - left. reflexivity.
Defined.

(** X11: after Bert's rejection. *)
Lemma run_keeps_pending_open_witness :
  Forall (fun row => confA row && confB row = false)
    (pending (mkTables [anna; bert] [] [])).
Proof.
  apply (@run_keeps_pending_open stable_sort_values 500 "Bert" (Ablehnen 0)
           reported (mkTables [anna; bert] [] [])
           (Some (st_success "Match abgelehnt und entfernt.")) finished).
  - reflexivity.
  - repeat constructor.
Defined.

(** X13: after Bert's confirmation. *)
Lemma run_keeps_roster_rebuilt_witness :
  @rebuild_players stable_sort_values
    [mkPlayer "Anna" 1216 1 0 1 "$2b$12$anna";
     mkPlayer "Bert" 1184 0 1 1 "$2b$12$bert"] [anna_bert] 32
  = Some [mkPlayer "Anna" 1216 1 0 1 "$2b$12$anna";
          mkPlayer "Bert" 1184 0 1 1 "$2b$12$bert"].
Proof.
  apply (@run_keeps_roster_rebuilt stable_sort_values 500 "Bert" (Bestaetigen 0)
           reported _ None finished bestaetigen_example).
  reflexivity.
Defined.

(** X17: Egon logs in with the PIN his row holds, read backwards. *)
Lemma login_needs_pin_witness :
  exists name pin salt p,
    in_sidebar (Einloggen "Egon" "4711" "salt") = in_sidebar (Einloggen name pin salt)
    /\ first_row name [anna; egon] = Some p
    /\ @check_pin stand_in_bcrypt pin (Pin p) = Some true
    /\ (is_hash (Pin p) = false -> pin = Pin p)
    /\ current_player (mkSession true (Some "Egon") spiel) = Some name.
Proof.
  apply (@login_needs_pin stable_sort_values stand_in_bcrypt 10
           (in_sidebar (Einloggen "Egon" "4711" "salt")) new_session
           (mkSession true (Some "Egon") spiel)
           (mkTables [anna; egon] [] [])
           (mkTables (loc_set_Pin "Egon" "$2b$4711" [anna; egon]) [] []));
    reflexivity.
Defined.

(** X18: the confirmation of Bert, read backwards. *)
Lemma history_changes_by_confirmation_witness :
  exists player idx row,
    logged_in (mkSession true (Some "Bert") spiel) = true
    /\ current_player (mkSession true (Some "Bert") spiel) = Some player
    /\ view_mode (mkSession true (Some "Bert") spiel) = spiel
    /\ in_page (Bestaetigen 0) = in_page (Bestaetigen idx)
    /\ pending reported !! idx = Some row
    /\ awaits player row = true
    /\ other_flag player row = true
    /\ [anna_bert] = matches reported ++ [cols row].
Proof.
  apply (@history_changes_by_confirmation stable_sort_values stand_in_bcrypt 500
           (in_page (Bestaetigen 0)) (mkSession true (Some "Bert") spiel)
           (mkSession true (Some "Bert") spiel) reported
           (mkTables [mkPlayer "Anna" 1216 1 0 1 "$2b$12$anna";
                      mkPlayer "Bert" 1184 0 1 1 "$2b$12$bert"]
              [anna_bert] [])).
  - cbn [script logged_in negb view_mode current_player].
    rewrite bestaetigen_example. reflexivity.
  - discriminate.
Defined.

(** X20: Egon logs out again. *)
Lemma script_keeps_session_coupled_witness :
  coupled new_session /\ coupled (mkSession false None spiel).
Proof.
  apply (@script_keeps_session_coupled stable_sort_values stand_in_bcrypt 30
           (in_sidebar Logout) (mkSession true (Some "Egon") spiel)
           (mkSession false None spiel)
           (mkTables [anna; egon] [] []) (mkTables [anna; egon] [] [])).
  - reflexivity.
  - unfold coupled. cbn. split; eauto.
Defined.

(** The sidebar against the stand-in: a wrong PIN and a stored value that
    is no hash of the library leave session and tables as they are, the
    second by way of the [ValueError] of [checkpw]. *)
Lemma einloggen_examples :
  @einloggen stand_in_bcrypt "Egon" "0000" "salt" new_session [anna; egon]
  = inr (new_session, [anna; egon], Some (note_error "Falsche PIN"))
  /\ @einloggen stand_in_bcrypt "Egon" "4711" "salt" new_session
       [anna; mkPlayer "Egon" 1200 0 0 0 "$2a$4711"]
     = inl ValueError
  /\ @script stable_sort_values stand_in_bcrypt 10
       (in_sidebar (Einloggen "Egon" "4711" "salt")) new_session
       (mkTables [anna; mkPlayer "Egon" 1200 0 0 0 "$2a$4711"] [] [])
     = (new_session, mkTables [anna; mkPlayer "Egon" 1200 0 0 0 "$2a$4711"] [] []).
Proof. repeat split. Qed.
